(** * flygym examples: random exploration, path integration, moving-fly arena

    A shallow embedding of

    - [flygym/examples/path_integration/controller.py]
      ([WalkingState], [RandomExplorationController], [PathIntegrationNMF]);
    - [flygym/examples/vision_connectome_model/arena.py]
      ([MovingFlyArena]).

    Conventions of the embedding.

    - A Python [float] is a real number ([R]): [np.exp], [np.cos],
      [np.sin], [np.linalg.norm] and [np.arctan2] are the functions of
      real analysis.  Rounding, infinities and NaN are outside the model.
    - A method that mutates [self] is a function from the object before
      the call to the object after the call (and the returned value).
    - A Python exception is the [Raise] branch of [result].
    - numpy arrays that are shared between the controller and its caller
      live in an explicit [heap]; a variable holding such an array holds
      its location.
    - [np.random.RandomState] is an interface ([RandomSource]): the
      generator state is threaded through every draw. *)

From Stdlib Require Import Reals Lra Lia ZArith String List.
From stdpp Require Import base option list gmap strings.
Import ListNotations.

Local Open Scope R_scope.

(** ** Python exceptions *)

Inductive exn : Type :=
| AttributeError (attr : string)
| TypeError (msg : string)
| KeyError (key : string)
| IndexError
| ZeroDivisionError
| ValueError (msg : string).

Inductive result (A : Type) : Type :=
| Ok (a : A)
| Raise (e : exn).

Arguments Ok {A} a.
Arguments Raise {A} e.

#[global] Instance result_ret : MRet result := fun A a => Ok a.

#[global] Instance result_bind : MBind result := fun A B k m =>
  match m with
  | Ok a => k a
  | Raise e => Raise e
  end.

Definition is_Ok {A} (m : result A) : Prop :=
  match m with Ok _ => True | Raise _ => False end.

(** Reading an attribute that [__init__] did not create. *)
Definition getattr {A} (name : string) (slot : option A) : result A :=
  match slot with
  | Some a => Ok a
  | None => Raise (AttributeError name)
  end.

(** ** numpy arrays on a heap *)

Abbreviation ndarray := (list R) (only parsing).
Abbreviation loc := nat (only parsing).
Abbreviation heap := (list (list R)) (only parsing).

(** [np.array(t)] for a 2-tuple [t]: a fresh array holding a copy. *)
Definition np_array (h : heap) (t : R * R) : heap * loc :=
  (h ++ [[t.1; t.2]], length h).

(** [arr[i] = x] on the array at location [a]; numpy raises
    [IndexError] out of range.  A location outside the heap belongs to
    no array. *)
Definition setitem (h : heap) (a : loc) (i : nat) (x : R) : result heap :=
  match h !! a with
  | Some arr =>
      if decide (i < length arr)%nat
      then Ok (<[a := <[i := x]> arr]> h)
      else Raise IndexError
  | None => Raise (ValueError "dangling array")
  end.

(** ** The random source *)

(** [np.random.RandomState]: seeding and the four draws the two files
    use.  Every draw returns the sample and the generator state after
    it.  [rs_choice a l] is [choice([a] + l)]. *)
Class RandomSource (G : Type) : Type := {
  rs_seed : Z -> G;
  rs_rand : G -> R * G;
  rs_normal : R -> R -> G -> R * G;
  rs_uniform : R -> R -> G -> R * G;
  rs_choice : forall {A : Type}, A -> list A -> G -> A * G;
  rs_rand_range : forall g, 0 <= (rs_rand g).1 < 1;
  rs_choice_In : forall (A : Type) (a : A) (l : list A) g,
      In (rs_choice a l g).1 (a :: l)
}.

(** ** controller.py *)

Inductive WalkingState : Type :=
| FORWARD
| TURN_LEFT
| TURN_RIGHT
| STOP.

Definition WalkingState_value (s : WalkingState) : Z :=
  match s with
  | FORWARD => 0
  | TURN_LEFT => 1
  | TURN_RIGHT => 2
  | STOP => 3
  end.

Definition WalkingState_name (s : WalkingState) : string :=
  match s with
  | FORWARD => "WalkingState.FORWARD"
  | TURN_LEFT => "WalkingState.TURN_LEFT"
  | TURN_RIGHT => "WalkingState.TURN_RIGHT"
  | STOP => "WalkingState.STOP"
  end.

#[global] Instance WalkingState_eq_dec : EqDecision WalkingState.
Proof. solve_decision. Defined.

#[global] Instance WalkingState_countable : Countable WalkingState.
Proof.
  refine (inj_countable'
            (fun s => match s with
                      | FORWARD => 0 | TURN_LEFT => 1
                      | TURN_RIGHT => 2 | STOP => 3
                      end%nat)
            (fun n => match n with
                      | 0 => FORWARD | 1 => TURN_LEFT
                      | 2 => TURN_RIGHT | _ => STOP
                      end%nat) _).
  intros []; reflexivity.
Defined.

(** [d[k]] on a dict keyed by walking states. *)
Definition getitem (d : gmap WalkingState loc) (k : WalkingState)
  : result loc :=
  match d !! k with
  | Some v => Ok v
  | None => Raise (KeyError (WalkingState_name k))
  end.

Module RandomExplorationController.
Section WithRandomSource.
Context {G : Type} `{RandomSource G}.

(** The attributes of an instance.  [curr_state_start_time] is not
    created by [__init__]: [None] stands for "no such attribute".
    [_curr_turn_duration] is created holding Python's [None]. *)
Record t : Type := Build {
  random_state : G;
  dt : R;
  init_time : R;
  curr_time : R;
  curr_state : WalkingState;
  _curr_turn_duration : option R;
  curr_state_start_time : option R;
  dn_drives : gmap WalkingState loc;
  turn_duration_mean : R;
  turn_duration_std : R;
  lambda_turn : R
}.

Definition set_random_state (self : t) (g : G) : t :=
  Build g (dt self) (init_time self) (curr_time self) (curr_state self)
    (_curr_turn_duration self) (curr_state_start_time self)
    (dn_drives self) (turn_duration_mean self) (turn_duration_std self)
    (lambda_turn self).

Definition set_curr_time (self : t) (x : R) : t :=
  Build (random_state self) (dt self) (init_time self) x (curr_state self)
    (_curr_turn_duration self) (curr_state_start_time self)
    (dn_drives self) (turn_duration_mean self) (turn_duration_std self)
    (lambda_turn self).

Definition set_curr_state (self : t) (s : WalkingState) : t :=
  Build (random_state self) (dt self) (init_time self) (curr_time self) s
    (_curr_turn_duration self) (curr_state_start_time self)
    (dn_drives self) (turn_duration_mean self) (turn_duration_std self)
    (lambda_turn self).

Definition set_curr_turn_duration (self : t) (d : R) : t :=
  Build (random_state self) (dt self) (init_time self) (curr_time self)
    (curr_state self) (Some d) (curr_state_start_time self)
    (dn_drives self) (turn_duration_mean self) (turn_duration_std self)
    (lambda_turn self).

Definition set_curr_state_start_time (self : t) (x : R) : t :=
  Build (random_state self) (dt self) (init_time self) (curr_time self)
    (curr_state self) (_curr_turn_duration self) (Some x)
    (dn_drives self) (turn_duration_mean self) (turn_duration_std self)
    (lambda_turn self).

(** [__init__]: the three drive tuples are copied into fresh arrays, in
    the order of the dict display. *)
Definition __init__ (h : heap) (dt : R)
    (forward_dn_drive left_turn_dn_drive right_turn_dn_drive : R * R)
    (turn_duration_mean turn_duration_std lambda_turn : R)
    (seed : Z) (init_time : R) : heap * t :=
  let g := rs_seed seed in
  let '(h, a_forward) := np_array h forward_dn_drive in
  let '(h, a_left) := np_array h left_turn_dn_drive in
  let '(h, a_right) := np_array h right_turn_dn_drive in
  (h,
   Build g dt init_time 0 FORWARD None None
     {[ FORWARD := a_forward; TURN_LEFT := a_left; TURN_RIGHT := a_right ]}
     turn_duration_mean turn_duration_std lambda_turn).

(** The block under [# Forward -> turn transition]. *)
Definition forward_to_turn (self : t) : t :=
  if decide (curr_state self = FORWARD) then
    let p_nochange := exp (- lambda_turn self * dt self) in
    let '(u, g) := rs_rand (random_state self) in
    let self := set_random_state self g in
    if Rgt_dec u p_nochange then
      let '(d, g) :=
        rs_normal (turn_duration_mean self) (turn_duration_std self) g in
      let self := set_curr_turn_duration (set_random_state self g) d in
      let '(s, g) := rs_choice TURN_LEFT [TURN_RIGHT] g in
      let self := set_curr_state (set_random_state self g) s in
      set_curr_state_start_time self (curr_time self)
    else self
  else self.

(** The block under [# Turn -> forward transition].  The left operand
    of [>] is evaluated first, so a missing start time is reported
    before a [None] duration. *)
Definition turn_to_forward (self : t) : result t :=
  if decide (curr_state self ∈ [TURN_LEFT; TURN_RIGHT]) then
    start ← getattr "curr_state_start_time" (curr_state_start_time self);
    match _curr_turn_duration self with
    | None => Raise (TypeError "'>' not supported between 'float' and 'NoneType'")
    | Some d =>
        if Rgt_dec (curr_time self - start) d then
          let self := set_curr_state self FORWARD in
          Ok (set_curr_state_start_time self (curr_time self))
        else Ok self
    end
  else Ok self.

(** [step]: the returned drive is the dict entry itself, that is the
    location of the stored array. *)
Definition step (self : t) : result (t * (WalkingState * loc)) :=
  if Rlt_dec (curr_time self) (init_time self) then
    let self := set_curr_time self (curr_time self + dt self) in
    drive ← getitem (dn_drives self) FORWARD;
    Ok (self, (FORWARD, drive))
  else
    self ← turn_to_forward (forward_to_turn self);
    let self := set_curr_time self (curr_time self + dt self) in
    drive ← getitem (dn_drives self) (curr_state self);
    Ok (self, (curr_state self, drive)).

End WithRandomSource.
Arguments t G : clear implicits.
End RandomExplorationController.

(** *** PathIntegrationNMF *)

Abbreviation Vec2 := (R * R)%type (only parsing).
Abbreviation Vec3 := (R * R * R)%type (only parsing).

(** The slice [[:2]] of a 3-vector. *)
Definition xy (v : Vec3) : Vec2 := (v.1.1, v.1.2).

Definition vsub (u v : Vec2) : Vec2 := (u.1 - v.1, u.2 - v.2).

(** [np.linalg.norm] of a 2-vector. *)
Definition norm (v : Vec2) : R := sqrt (v.1 * v.1 + v.2 * v.2).

(** [np.arctan2(y, x)]: the angle of the point [(x, y)], in (-pi, pi]. *)
Definition arctan2 (y x : R) : R :=
  if Rlt_dec 0 x then atan (y / x)
  else if Rlt_dec x 0 then
    (if Rle_dec 0 y then atan (y / x) + PI else atan (y / x) - PI)
  else if Rlt_dec 0 y then PI / 2
  else if Rlt_dec y 0 then - (PI / 2)
  else 0.

(** [m.T] of a 2x2 matrix given by its rows. *)
Definition transpose (m : Vec2 * Vec2) : Vec2 * Vec2 :=
  ((m.1.1, m.2.1), (m.1.2, m.2.2)).

(** [np.dot(a, m)] of an (n, 2) matrix with a 2x2 matrix. *)
Definition dot (a : list Vec2) (m : Vec2 * Vec2) : list Vec2 :=
  map (fun r => (r.1 * m.1.1 + r.2 * m.2.1, r.1 * m.1.2 + r.2 * m.2.2)) a.

(** [np.zeros_like] of an (n, 2) matrix. *)
Definition zeros_like (a : list Vec2) : list Vec2 :=
  map (fun _ => (0, 0)) a.

(** [a - b] of an (n, 2) and an (m, 2) matrix: elementwise when
    [n = m], a single row is broadcast, anything else raises. *)
Definition np_sub (a b : list Vec2) : result (list Vec2) :=
  if decide (length a = length b) then Ok (zip_with vsub a b)
  else
    match a, b with
    | _, [v] => Ok (map (fun u => vsub u v) a)
    | [u], _ => Ok (map (fun v => vsub u v) b)
    | _, _ => Raise (ValueError "operands could not be broadcast together")
    end.

Module PathIntegrationNMF.

Definition absolute_to_relative_pos
    (pos : list Vec2) (base_pos heading : Vec2) : list Vec2 :=
  let rel_pos := map (fun p => vsub p base_pos) pos in
  let heading := (heading.1 / norm heading, heading.2 / norm heading) in
  let angle := arctan2 heading.2 heading.1 in
  let rot_matrix :=
    ((cos (- angle), - sin (- angle)), (sin (- angle), cos (- angle))) in
  let pos_rotated := dot rel_pos (transpose rot_matrix) in
  pos_rotated.

Section WithBase.
(** [HybridTurningController] is not part of these files: its state
    (with the arena and the physics), its [step] and the arena's
    [update_cam_pos] are parameters. *)
Context {Base Action Info Extra Hist : Type}.
Context (super_step :
           Base -> Action -> Base * (list Vec3 * (Vec3 * list Vec3) * Vec3 * Extra)
                                * R * bool * bool * Info).
Context (update_cam_pos : Base -> Vec2 -> Base).

(** The observation dict after [step]: the entries the wrapper reads
    ([obs["fly"]] has at least its row 0), the entry it adds, and the
    rest. *)
Record Obs : Type := BuildObs {
  end_effectors : list Vec3;
  fly : Vec3 * list Vec3;
  fly_orientation : Vec3;
  stride_diff_unmasked : list Vec2;
  obs_extra : Extra
}.

Record t : Type := Build {
  base : Base;
  _last_end_effector_pos : option (list Vec2);
  total_stride_lengths_hist : list Hist;
  heading_estimate_hist : list Hist;
  pos_estimate_hist : list Hist
}.

Definition __init__ (b : Base) : t := Build b None [] [] [].

Definition step (self : t) (action : Action)
  : result (t * (Obs * R * bool * bool * Info)) :=
  let '(b, (ee, fl, ori, extra), reward, terminated, truncated, info) :=
    super_step (base self) action in
  let b := update_cam_pos b (xy fl.1) in
  let ee_pos_rel := absolute_to_relative_pos (map xy ee) (xy fl.1) (xy ori) in
  ee_diff ←
    match _last_end_effector_pos self with
    | None => Ok (zeros_like ee_pos_rel)
    | Some last => np_sub ee_pos_rel last
    end;
  let self :=
    Build b (Some ee_pos_rel) (total_stride_lengths_hist self)
      (heading_estimate_hist self) (pos_estimate_hist self) in
  let obs := BuildObs ee fl ori ee_diff extra in
  Ok (self, (obs, reward, terminated, truncated, info)).

End WithBase.
End PathIntegrationNMF.

(** ** arena.py *)

(** The MJCF elements [MovingFlyArena.__init__] adds, with the
    attributes it passes. *)
Inductive mjcf_element : Type :=
| Texture (type builtin : string) (width height : Z) (rgb1 rgb2 : Vec3)
| Material (name : string) (texrepeat : Z * Z) (reflectance : R)
| GeomPlane (name : string) (size friction : Vec3)
| GeomBox (size pos : Vec3) (rgba : Vec3 * R) (friction : Vec3)
| Body (name : string)
| Site (pos euler : Vec3)
| AttachedFly (model : string)
| Freejoint
| Camera (name mode : string) (pos euler : Vec3) (fovy : R).

(** The least integer not below [x]. *)
Definition Rceil (x : R) : Z := (1 - up (- x))%Z.

(** [np.arange(start, stop, step)] on floats. *)
Definition arange (start stop step : R) : result (list R) :=
  if Req_dec_T step 0 then Raise ZeroDivisionError
  else
    let n := Z.to_nat (Rceil ((stop - start) / step)) in
    Ok (map (fun i => start + INR i * step) (seq 0 n)).

(** [enumerate]. *)
Definition enumerate {A} (l : list A) : list (nat * A) :=
  zip (seq 0 (length l)) l.

Module MovingFlyArena.
Section WithRandomSource.
Context {G : Type} `{RandomSource G}.

(** [x_range], [y_range], [block_size] and [height_range] are
    attributes of a "blocks" arena only. *)
Record t : Type := Build {
  terrain : string;
  init_fly_pos : Vec3;
  fly_pos : Vec3;
  friction : Vec3;
  move_speed : R;
  curr_time : R;
  move_direction : string;
  lateral_magnitude : R;
  y_mult : Z;
  blocks_attrs : option (Vec2 * Vec2 * R * Vec2);
  asset : list mjcf_element;
  worldbody : list mjcf_element;
  _prev_pos : Vec2
}.

(** The branch [terrain == "flat"]. *)
Definition add_flat_ground (friction : Vec3)
  : list mjcf_element * list mjcf_element :=
  let ground_size := (300, 300, 1) in
  let chequered :=
    Texture "2d" "checker" 300 300 (0.8, 0.8, 0.8) (0.9, 0.9, 0.9) in
  let grid := Material "grid" (60, 60)%Z 0.1 in
  ([chequered; grid], [GeomPlane "ground" ground_size friction]).

(** One iteration of the inner loop of the branch
    [terrain == "blocks"]. *)
Definition add_block (block_size : R) (height_range : Vec2)
    (ground_alpha : R) (friction : Vec3) (i : nat) (x_pos : R)
    (acc : G * list mjcf_element) (jy : nat * R)
  : G * list mjcf_element :=
  let '(rand_state, body) := acc in
  let '(j, y_pos) := jy in
  let is_i_odd := bool_decide (i `mod` 2 = 1)%nat in
  let is_j_odd := bool_decide (j `mod` 2 = 1)%nat in
  let '(height, rand_state) :=
    if negb (eqb is_i_odd is_j_odd) then (0.1, rand_state)
    else
      let '(u, g) := rs_uniform height_range.1 height_range.2 rand_state in
      (0.1 + u, g) in
  let box :=
    GeomBox
      (block_size / 2 + 0.1 * block_size / 2,
       block_size / 2 + 0.1 * block_size / 2,
       height / 2 + block_size / 2)
      (x_pos, y_pos, height / 2 - block_size / 2)
      (0.3, 0.3, 0.3, ground_alpha)
      friction in
  (rand_state, body ++ [box]).

(** The branch [terrain == "blocks"]. *)
Definition add_blocks (x_range y_range : Vec2) (block_size : R)
    (height_range : Vec2) (rand_seed : Z) (ground_alpha : R)
    (friction : Vec3) : result (list mjcf_element) :=
  let rand_state := rs_seed rand_seed in
  x_centers ← arange (x_range.1 + block_size / 2) x_range.2 block_size;
  y_centers ← arange (y_range.1 + block_size / 2) y_range.2 block_size;
  let '(_, body) :=
    foldl
      (fun acc ix =>
         foldl
           (add_block block_size height_range ground_alpha friction
              ix.1 ix.2)
           acc (enumerate y_centers))
      (rand_state, []) (enumerate x_centers) in
  Ok (body ++ [Body "base_plane"]).

(** The chain of tests on [move_direction].  [np_random] is numpy's
    global generator, used by [np.random.choice]; it is returned as the
    chain leaves it. *)
Definition choose_y_mult (np_random : G) (move_direction : string)
  : result Z * G :=
  if String.eqb move_direction "left" then (Ok 1%Z, np_random)
  else if String.eqb move_direction "right" then (Ok (-1)%Z, np_random)
  else if String.eqb move_direction "random" then
    let '(c, g) := rs_choice (-1)%Z [1%Z] np_random in (Ok c, g)
  else (Raise (ValueError "Invalid move_direction"), np_random).

(** The block under [# Add ground]: the attributes of a "blocks" arena,
    the assets and the bodies. *)
Definition add_ground (terrain : string) (x_range y_range : Vec2)
    (block_size : R) (height_range : Vec2) (rand_seed : Z)
    (ground_alpha : R) (friction : Vec3)
  : result (option (Vec2 * Vec2 * R * Vec2)
            * list mjcf_element * list mjcf_element) :=
  if String.eqb terrain "flat" then
    let '(asset, body) := add_flat_ground friction in
    Ok (None, asset, body)
  else if String.eqb terrain "blocks" then
    body ← add_blocks x_range y_range block_size height_range
             rand_seed ground_alpha friction;
    Ok (Some (x_range, y_range, block_size, height_range), [], body)
  else
    Raise (ValueError ("Invalid terrain '" ++ terrain ++ "'")).

(** [__init__]: the attributes, the tests on [move_direction], the
    ground, the fly and the cameras, in this order.  The global
    generator is returned also when the call raises. *)
Definition __init__ (np_random : G) (terrain : string)
    (x_range y_range : Vec2) (block_size : R) (height_range : Vec2)
    (rand_seed : Z) (ground_alpha : R) (friction : Vec3)
    (obj_radius : R) (init_fly_pos : Vec2) (move_speed : R)
    (move_direction : string) (lateral_magnitude : R)
  : result t * G :=
  let init_fly_pos3 := (init_fly_pos.1, init_fly_pos.2, obj_radius) in
  let fly_pos := init_fly_pos3 in
  let '(y_mult, np_random) := choose_y_mult np_random move_direction in
  (y_mult ← y_mult;
   '(blocks_attrs, asset, body) ←
     add_ground terrain x_range y_range block_size height_range rand_seed
       ground_alpha friction;
   let _prev_pos := init_fly_pos in
   let body :=
     body ++ [Site fly_pos (0, 0, 0); AttachedFly "Animat_2"; Freejoint;
              Camera "birdeye_cam" "fixed" (15, 0, 35) (0, 0, 0) 45;
              Camera "birdeye_cam_zoom" "fixed" (15, 0, 20) (0, 0, 0) 45] in
   Ok (Build terrain init_fly_pos3 fly_pos friction move_speed 0
         move_direction lateral_magnitude y_mult blocks_attrs asset body
         _prev_pos),
   np_random).

End WithRandomSource.

Definition get_spawn_position {A B : Type} (rel_pos : A) (rel_angle : B)
  : A * B :=
  (rel_pos, rel_angle).

Section Motion.
Context {G : Type} `{RandomSource G}.

(** The physics engine is not part of these files: [set_qpos] is
    [physics.bind(self.freejoint).qpos = ...] and [set_mocap_pos] is
    [physics.bind(body).mocap_pos = ...].  [object_body] is an attribute
    [reset] reads and this class never creates: it is there or not
    depending on the base class. *)
Context {Physics ObjectBody : Type}.
Context (set_qpos : Physics -> Vec3 * (R * R * R * R) -> Physics).
Context (set_mocap_pos : Physics -> ObjectBody -> Vec3 -> Physics).
Context (object_body : option ObjectBody).

(** [step]: the complex numbers [curr_pos] and [_prev_pos] are pairs,
    [np.angle] of a complex number is [arctan2] of its parts and
    [np.exp] of an imaginary number is a point of the unit circle. *)
Definition step (self : t) (dt : R) (physics : Physics) : t * Physics :=
  let heading_vec :=
    (1, lateral_magnitude self * cos (curr_time self * 3)
        * IZR (y_mult self)) in
  let heading_vec :=
    (heading_vec.1 / norm heading_vec, heading_vec.2 / norm heading_vec) in
  let fly_pos :=
    ((fly_pos self).1.1 + move_speed self * heading_vec.1 * dt,
     (fly_pos self).1.2 + move_speed self * heading_vec.2 * dt,
     (fly_pos self).2) in
  let curr_pos := xy fly_pos in
  let diff := vsub curr_pos (_prev_pos self) in
  let angle := arctan2 diff.2 diff.1 in
  let q := (cos (angle / 2), sin (angle / 2)) in
  let qpos := (fly_pos, (q.1, 0, 0, q.2)) in
  let physics := set_qpos physics qpos in
  (Build (terrain self) (init_fly_pos self) fly_pos (friction self)
     (move_speed self) (curr_time self + dt) (move_direction self)
     (lateral_magnitude self) (y_mult self) (blocks_attrs self) (asset self)
     (worldbody self) curr_pos,
   physics).

(** [reset]: the attributes are assigned before [object_body] is read,
    so the arena and the global generator are returned as the call
    leaves them, also when its last line raises. *)
Definition reset (np_random : G) (self : t) (physics : Physics)
  : t * G * result Physics :=
  let _prev_pos := xy (init_fly_pos self) in
  let '(y_mult, np_random) :=
    if String.eqb (move_direction self) "random"
    then rs_choice (-1)%Z [1%Z] np_random
    else (y_mult self, np_random) in
  let fly_pos := init_fly_pos self in
  let self :=
    Build (terrain self) (init_fly_pos self) fly_pos (friction self)
      (move_speed self) 0 (move_direction self) (lateral_magnitude self)
      y_mult (blocks_attrs self) (asset self) (worldbody self) _prev_pos in
  (self, np_random,
   body ← getattr "object_body" object_body;
   Ok (set_mocap_pos physics body fly_pos)).

End Motion.
End MovingFlyArena.

(** * Vocabulary of the properties *)

Module REC := RandomExplorationController.

(** The kinds of draws: [rand()], [normal(m, s)], [uniform(lo, hi)] and
    [choice] among [n] candidates. *)
Inductive draw_kind : Type :=
| Rand
| Normal (m s : R)
| Uniform (lo hi : R)
| Choice (n : nat).

Section ControllerVocabulary.
Context {G : Type} `{RandomSource G}.
Import RandomExplorationController.

(** One draw of a given kind from a generator. *)
Inductive draw (g : G) : draw_kind -> G -> Prop :=
| draw_rand : draw g Rand (rs_rand g).2
| draw_normal m s : draw g (Normal m s) (rs_normal m s g).2
| draw_uniform lo hi : draw g (Uniform lo hi) (rs_uniform lo hi g).2
| draw_choice (A : Type) (a : A) l :
    draw g (Choice (S (length l))) (rs_choice a l g).2.

(** [draws g ks g']: [g'] is [g] after the draws [ks], in this order,
    and nothing else. *)
Inductive draws (g : G) : list draw_kind -> G -> Prop :=
| draws_nil : draws g [] g
| draws_cons k ks g1 g2 :
    draw g k g1 -> draws g1 ks g2 -> draws g (k :: ks) g2.

(** [n] consecutive calls of [step].  Each call is logged with the
    returned state, the returned drive and the turn duration the
    instance holds after the call. *)
Fixpoint run (n : nat) (self : t G)
  : result (t G * list (WalkingState * loc * option R)) :=
  match n with
  | O => Ok (self, [])
  | S n =>
      '(self, out) ← step self;
      '(last, outs) ← run n self;
      Ok (last, (out.1, out.2, _curr_turn_duration self) :: outs)
  end.

(** What a caller sees of a log: the arrays behind the drives. *)
Definition observe (h : heap) (outs : list (WalkingState * loc * option R))
  : list (WalkingState * option (list R) * option R) :=
  map (fun o => (o.1.1, h !! o.1.2, o.2)) outs.

(** The dict has an entry for every state but [STOP]. *)
Definition drives_defined (self : t G) : Prop :=
  forall s, s <> STOP -> is_Some (dn_drives self !! s).

(** In a turning state the start time exists and the duration is a
    number. *)
Definition turn_ready (self : t G) : Prop :=
  curr_state self ∈ [TURN_LEFT; TURN_RIGHT] ->
  is_Some (curr_state_start_time self) /\ is_Some (_curr_turn_duration self).

Definition inv (self : t G) : Prop :=
  curr_state self <> STOP /\ drives_defined self /\ turn_ready self.

(** An instance with another dict of drives: what a second instance
    built with the same arguments is to the first. *)
Definition relabel (self : t G) (d : gmap WalkingState loc) : t G :=
  Build (random_state self) (dt self) (init_time self) (curr_time self)
    (curr_state self) (_curr_turn_duration self) (curr_state_start_time self)
    d (turn_duration_mean self) (turn_duration_std self) (lambda_turn self).

Definition relabel_outs (d : gmap WalkingState loc)
    (outs : list (WalkingState * loc * option R))
  : list (WalkingState * loc * option R) :=
  map (fun o => (o.1.1, default 0%nat (d !! o.1.1), o.2)) outs.

(** [self.dn_drives[s]] as the numbers it holds on heap [h]. *)
Definition drive_value (h : heap) (self : t G) (s : WalkingState)
  : option (list R) :=
  a ← dn_drives self !! s; h !! a.

(** "The returned drive is a copy": after a call, no assignment to an
    element of the returned array changes what the dict holds. *)
Definition returned_drive_is_copy : Prop :=
  forall (h h' : heap) (self self' : t G) s a i x,
    step self = Ok (self', (s, a)) ->
    setitem h a i x = Ok h' ->
    forall k, drive_value h' self' k = drive_value h self' k.

(** The draws a call makes, read off the instance before the call:
    none while settling or in a turn; in [FORWARD] the uniform sample,
    followed, when the sample exceeds the no-change probability, by the
    duration and the direction. *)
Definition call_draws (self : t G) : list draw_kind :=
  if Rlt_dec (curr_time self) (init_time self) then []
  else if decide (curr_state self = FORWARD) then
    if Rgt_dec (rs_rand (random_state self)).1
         (exp (- lambda_turn self * dt self))
    then [Rand; Normal (turn_duration_mean self) (turn_duration_std self);
          Choice 2]
    else [Rand]
  else [].

(** The draws of [n] consecutive calls, call after call. *)
Fixpoint run_kinds (n : nat) (self : t G) : list draw_kind :=
  match n with
  | O => []
  | S n =>
      call_draws self
      ++ match step self with
         | Ok (self, _) => run_kinds n self
         | Raise _ => []
         end
  end.

(** The numbers of the drive of a state, as given to [__init__]. *)
Definition drive_tuple (fwd left right : R * R) (s : WalkingState)
  : option (list R) :=
  match s with
  | FORWARD => Some [fwd.1; fwd.2]
  | TURN_LEFT => Some [left.1; left.2]
  | TURN_RIGHT => Some [right.1; right.2]
  | STOP => None
  end.

End ControllerVocabulary.

(** The dict [__init__] builds on a heap of [k] arrays. *)
Definition drives_at (k : nat) : gmap WalkingState loc :=
  {[ FORWARD := k; TURN_LEFT := S k; TURN_RIGHT := S (S k) ]}.

(** The rotation of the plane by the angle [theta]. *)
Definition rotate (theta : R) (p : Vec2) : Vec2 :=
  (p.1 * cos theta - p.2 * sin theta, p.1 * sin theta + p.2 * cos theta).

Definition vadd (u v : Vec2) : Vec2 := (u.1 + v.1, u.2 + v.2).

Definition scale (c : R) (v : Vec2) : Vec2 := (c * v.1, c * v.2).

(** The angle [absolute_to_relative_pos] computes from a heading. *)
Definition heading_angle (heading : Vec2) : R :=
  arctan2 (heading.2 / norm heading) (heading.1 / norm heading).

(** The cells of the grid of block centres, in the order of the two
    nested loops: the indices and the centre of each cell. *)
Definition grid (xs ys : list R) : list (nat * nat * R * R) :=
  flat_map (fun ix => map (fun jy => (ix.1, jy.1, ix.2, jy.2)) (enumerate ys))
    (enumerate xs).

(** The box of a block of a given height centred at [(x, y)]. *)
Definition block_box (block_size ground_alpha : R) (friction : Vec3)
    (x y height : R) : mjcf_element :=
  GeomBox
    (block_size / 2 + 0.1 * block_size / 2,
     block_size / 2 + 0.1 * block_size / 2,
     height / 2 + block_size / 2)
    (x, y, height / 2 - block_size / 2)
    (0.3, 0.3, 0.3, ground_alpha)
    friction.

(** Consecutive calls of [MovingFlyArena.step], one per time step of
    the list. *)
Fixpoint arena_steps {Physics : Type}
    (set_qpos : Physics -> Vec3 * (R * R * R * R) -> Physics)
    (self : MovingFlyArena.t) (dts : list R) (physics : Physics)
  : MovingFlyArena.t * Physics :=
  match dts with
  | [] => (self, physics)
  | dt :: dts =>
      let '(self, physics) := MovingFlyArena.step set_qpos self dt physics in
      arena_steps set_qpos self dts physics
  end.

(** The second component of the heading [MovingFlyArena.step] builds,
    before it is normalised: the lateral speed per unit of forward
    speed. *)
Definition lateral_slope (self : MovingFlyArena.t) : R :=
  MovingFlyArena.lateral_magnitude self
  * cos (MovingFlyArena.curr_time self * 3)
  * IZR (MovingFlyArena.y_mult self).

Definition valid_move_direction (move_direction : string) : Prop :=
  move_direction = "left" \/ move_direction = "right"
  \/ move_direction = "random".

Definition valid_terrain (terrain : string) : Prop :=
  terrain = "flat" \/ terrain = "blocks".

Definition raises_ValueError {A} (r : result A) : Prop :=
  exists msg, r = Raise (ValueError msg).

(** * Instances to run the definitions on

    ** A scripted random source

    A generator whose state is the list of the raw numbers still to be
    handed out; an exhausted script keeps answering with the least
    sample.  A choice looks at the first two candidates only. *)
Module Scripted.

Definition unit_interval (x : R) : R :=
  if Rle_dec 0 x then if Rlt_dec x 1 then x else 0 else 0.

Definition rand (g : list R) : R * list R :=
  match g with
  | [] => (0, [])
  | x :: g => (unit_interval x, g)
  end.

Definition normal (m s : R) (g : list R) : R * list R :=
  match g with
  | [] => (m, [])
  | x :: g => (m + s * x, g)
  end.

Definition uniform (lo hi : R) (g : list R) : R * list R :=
  let '(u, g) := rand g in (lo + (hi - lo) * u, g).

Definition choice {A : Type} (a : A) (l : list A) (g : list R)
  : A * list R :=
  match g with
  | [] => (a, [])
  | x :: g => (if Rlt_dec x (1 / 2) then a else List.hd a l, g)
  end.

(** The seed is the first number of the script. *)
#[global] Instance source : RandomSource (list R).
Proof.
  refine {| rs_seed z := [IZR z];
            rs_rand := rand;
            rs_normal := normal;
            rs_uniform := uniform;
            rs_choice := @choice |}.
  - intros g. destruct g as [|x g]; simpl; [lra|].
    unfold unit_interval.
    destruct (Rle_dec 0 x); [destruct (Rlt_dec x 1)|]; lra.
  - intros A a l g. destruct g as [|x g]; simpl; [now left|].
    destruct (Rlt_dec x (1 / 2)); [now left|].
    destruct l; simpl; auto.
Defined.

End Scripted.

(** The instance the examples run: the constructor's defaults with a
    tick of 0.01 s, on an empty heap, over a given script. *)
Definition default_controller (script : list R) : heap * REC.t (list R) :=
  let '(h, self) :=
    REC.__init__ [] 0.01 (1, 1) (- 0.4, 1.2) (1.2, - 0.4) 0.4 0.1 1 0%Z 0.1 in
  (h, REC.set_random_state self script).

(** The default instance at the end of its settling phase, about to draw
    0.999, then the deviate -5 (a duration of 0.4 + 0.1 * -5), then 0.2
    (the first candidate, [TURN_LEFT]). *)
Definition settled_controller : REC.t (list R) :=
  REC.set_curr_time (default_controller [0.999; - 5; 0.2]).2 0.1.

(** A wrapped controller whose state is a clock [b]: it reports two end
    effectors that move with the clock, of a fly at the origin heading
    along x. *)
Definition counting_step (b : R) (_ : unit)
  : R * (list Vec3 * (Vec3 * list Vec3) * Vec3 * unit)
    * R * bool * bool * unit :=
  (b + 1, ([(b, 2, 3); (4, b, 6)], ((0, 0, 0.5), []), (1, 0, 0), tt),
   0, false, false, tt).

(** The same instance about to draw 0.999, then the deviate 1 (a
    duration of 0.4 + 0.1 * 1), then 0.9 (the second candidate,
    [TURN_RIGHT]). *)
Definition turning_controller : REC.t (list R) :=
  REC.set_curr_time (default_controller [0.999; 1; 0.9]).2 0.1.

(** The default instance in a left turn begun at 0.1 s for 0.025 s. *)
Definition holding_controller : REC.t (list R) :=
  REC.Build (@nil R) 0.01 0.1 0.1 TURN_LEFT (Some 0.025) (Some 0.1)
    (REC.dn_drives (default_controller []).2) 0.4 0.1 1.

(** The constructor on its defaults but for the two options. *)
Definition default_arena (terrain move_direction : string)
  : result MovingFlyArena.t * list R :=
  MovingFlyArena.__init__ [0.7] terrain (- 10, 25) (- 20, 20) 1.3 (0.2, 0.2)
    0%Z 1 (1, 0.005, 0.0001) 1 (5, 0) 10 move_direction 2.

(** * Properties of [RandomExplorationController] *)

Section ControllerFacts.
Context {G : Type} `{RandomSource G}.
Import RandomExplorationController.

Lemma getitem_Some (d : gmap WalkingState loc) k a :
  d !! k = Some a -> getitem d k = Ok a.
Proof. unfold getitem. now intros ->. Qed.

Lemma step_settling (self : t G) :
  curr_time self < init_time self ->
  step self =
    (drive ← getitem (dn_drives self) FORWARD;
     Ok (set_curr_time self (curr_time self + dt self), (FORWARD, drive))).
Proof.
  intros Hlt. unfold step.
  destruct (Rlt_dec (curr_time self) (init_time self)); [reflexivity|lra].
Qed.

Lemma step_settled (self : t G) :
  ~ curr_time self < init_time self ->
  step self =
    (self ← turn_to_forward (forward_to_turn self);
     let self := set_curr_time self (curr_time self + dt self) in
     drive ← getitem (dn_drives self) (curr_state self);
     Ok (self, (curr_state self, drive))).
Proof.
  intros Hge. unfold step.
  destruct (Rlt_dec (curr_time self) (init_time self)); [lra|reflexivity].
Qed.

(** C1.  A call of [step] made while [curr_time < init_time] returns
    [FORWARD] with the forward entry of [dn_drives], leaves every
    attribute but [curr_time] as it was -- in particular the random state,
    so nothing is drawn -- and adds exactly [dt] to [curr_time]. *)
Theorem C1_settling_phase (self : t G) (a_forward : loc) :
  dn_drives self !! FORWARD = Some a_forward ->
  curr_time self < init_time self ->
  let self' := set_curr_time self (curr_time self + dt self) in
  step self = Ok (self', (FORWARD, a_forward))
  /\ curr_time self' = curr_time self + dt self
  /\ random_state self' = random_state self
  /\ draws (random_state self) [] (random_state self').
Proof.
  intros Hd Hlt self'. split; [|split; [reflexivity|split; [reflexivity|]]].
  - rewrite (step_settling _ Hlt). simpl. rewrite (getitem_Some _ _ _ Hd).
    reflexivity.
  - constructor.
Qed.

Lemma forward_to_turn_not_forward (self : t G) :
  curr_state self <> FORWARD -> forward_to_turn self = self.
Proof.
  intros Hs. unfold forward_to_turn.
  destruct (decide (curr_state self = FORWARD)); [contradiction|reflexivity].
Qed.

Lemma forward_to_turn_stay (self : t G) :
  curr_state self = FORWARD ->
  ~ (rs_rand (random_state self)).1 > exp (- lambda_turn self * dt self) ->
  forward_to_turn self = set_random_state self (rs_rand (random_state self)).2.
Proof.
  intros Hs Hu. unfold forward_to_turn.
  destruct (decide (curr_state self = FORWARD)); [|contradiction].
  destruct (rs_rand (random_state self)) as [u g1]; simpl in *.
  destruct (Rgt_dec u _); [contradiction|reflexivity].
Qed.

Lemma forward_to_turn_leave (self : t G) :
  curr_state self = FORWARD ->
  (rs_rand (random_state self)).1 > exp (- lambda_turn self * dt self) ->
  let g1 := (rs_rand (random_state self)).2 in
  let dg := rs_normal (turn_duration_mean self) (turn_duration_std self) g1 in
  let sg := rs_choice TURN_LEFT [TURN_RIGHT] dg.2 in
  forward_to_turn self =
    Build sg.2 (dt self) (init_time self) (curr_time self) sg.1
      (Some dg.1) (Some (curr_time self)) (dn_drives self)
      (turn_duration_mean self) (turn_duration_std self) (lambda_turn self).
Proof.
  intros Hs Hu. unfold forward_to_turn.
  destruct (decide (curr_state self = FORWARD)); [|contradiction].
  destruct (rs_rand (random_state self)) as [u g1]; simpl in *.
  destruct (Rgt_dec u _); [|contradiction].
  destruct (rs_normal _ _ g1) as [d g2]; simpl.
  destruct (rs_choice TURN_LEFT [TURN_RIGHT] g2) as [s g3]; reflexivity.
Qed.

Lemma choice_turn (g : G) :
  (rs_choice TURN_LEFT [TURN_RIGHT] g).1 ∈ [TURN_LEFT; TURN_RIGHT].
Proof. apply list_elem_of_In, rs_choice_In. Qed.

Lemma turn_not_forward (s : WalkingState) :
  s ∈ [TURN_LEFT; TURN_RIGHT] -> s <> FORWARD.
Proof.
  intros Hs ->. apply list_elem_of_In in Hs. simpl in Hs.
  intuition congruence.
Qed.

Lemma turn_to_forward_forward (self : t G) :
  curr_state self = FORWARD -> turn_to_forward self = Ok self.
Proof.
  intros Hs. unfold turn_to_forward.
  destruct (decide (curr_state self ∈ [TURN_LEFT; TURN_RIGHT])) as [Hin|];
    [|reflexivity].
  apply turn_not_forward in Hin. contradiction.
Qed.

(** A call that stays in [FORWARD] after the settling phase. *)
Lemma step_stay (self : t G) (a_forward : loc) :
  dn_drives self !! FORWARD = Some a_forward ->
  ~ curr_time self < init_time self ->
  curr_state self = FORWARD ->
  ~ (rs_rand (random_state self)).1 > exp (- lambda_turn self * dt self) ->
  step self =
    Ok (set_curr_time
          (set_random_state self (rs_rand (random_state self)).2)
          (curr_time self + dt self),
        (FORWARD, a_forward)).
Proof.
  intros Hd Hge Hs Hu. rewrite (step_settled _ Hge).
  rewrite (forward_to_turn_stay _ Hs Hu).
  rewrite turn_to_forward_forward by exact Hs. simpl.
  rewrite Hs, (getitem_Some _ _ _ Hd). reflexivity.
Qed.

(** With a zero rate the no-change probability is 1, which no uniform
    sample exceeds. *)
Lemma lambda_zero_stay (self : t G) :
  lambda_turn self = 0 ->
  ~ (rs_rand (random_state self)).1 > exp (- lambda_turn self * dt self).
Proof.
  intros ->. replace (- 0 * dt self) with 0 by ring. rewrite exp_0.
  pose proof (rs_rand_range (random_state self)). lra.
Qed.

Lemma run_lambda_zero (n : nat) : forall (self : t G) (a_forward : loc),
  dn_drives self !! FORWARD = Some a_forward ->
  curr_state self = FORWARD ->
  lambda_turn self = 0 ->
  exists self',
    run n self
    = Ok (self', repeat (FORWARD, a_forward, _curr_turn_duration self) n)
    /\ curr_state self' = FORWARD.
Proof.
  induction n as [|n IH]; intros self a Hd Hs Hl.
  - exists self. split; [reflexivity|exact Hs].
  - assert (Hstep : exists self1,
               step self = Ok (self1, (FORWARD, a))
               /\ dn_drives self1 = dn_drives self
               /\ curr_state self1 = FORWARD
               /\ lambda_turn self1 = 0
               /\ _curr_turn_duration self1 = _curr_turn_duration self).
    { destruct (Rlt_dec (curr_time self) (init_time self)) as [Hlt|Hge].
      - eexists. split.
        + rewrite (step_settling _ Hlt). simpl.
          rewrite (getitem_Some _ _ _ Hd). reflexivity.
        + simpl. auto.
      - eexists. split.
        + apply step_stay; auto using lambda_zero_stay.
        + simpl. auto. }
    destruct Hstep as (self1 & E1 & Hd1 & Hs1 & Hl1 & Hdur).
    destruct (IH self1 a) as (self' & E' & Hs'); [congruence|auto|auto|].
    exists self'. split; [|exact Hs'].
    simpl. rewrite E1. simpl. rewrite E'. simpl. rewrite Hdur. reflexivity.
Qed.

(** The three draws of a call that leaves [FORWARD]. *)
Lemma leave_draws (self : t G) :
  let g1 := (rs_rand (random_state self)).2 in
  let dg := rs_normal (turn_duration_mean self) (turn_duration_std self) g1 in
  let sg := rs_choice TURN_LEFT [TURN_RIGHT] dg.2 in
  draws (random_state self)
    [Rand; Normal (turn_duration_mean self) (turn_duration_std self); Choice 2]
    sg.2.
Proof.
  intros g1 dg sg.
  eapply draws_cons; [apply draw_rand|].
  eapply draws_cons; [apply draw_normal|].
  eapply draws_cons; [|constructor].
  exact (draw_choice dg.2 WalkingState TURN_LEFT [TURN_RIGHT]).
Qed.

(** C2.  After the settling phase and in [FORWARD], [step] draws one
    uniform sample [u]; the machine leaves [FORWARD] exactly when
    [u > exp (- lambda_turn * dt)].  When it does, the duration is the
    next draw, [normal (turn_duration_mean, turn_duration_std)], stored
    as drawn; the state is the draw after that, a choice between
    [TURN_LEFT] and [TURN_RIGHT]; the start time is the time before the
    call.  When it does not, the uniform sample is the only draw and the
    call returns [FORWARD].  With [lambda_turn = 0] every call of any run
    returns [FORWARD] and no duration is ever sampled. *)
Theorem C2_forward_to_turn (self : t G) (a_forward : loc) :
  dn_drives self !! FORWARD = Some a_forward ->
  curr_time self >= init_time self ->
  curr_state self = FORWARD ->
  let p_nochange := exp (- lambda_turn self * dt self) in
  let u := (rs_rand (random_state self)).1 in
  let g1 := (rs_rand (random_state self)).2 in
  let dg := rs_normal (turn_duration_mean self) (turn_duration_std self) g1 in
  let sg := rs_choice TURN_LEFT [TURN_RIGHT] dg.2 in
  let mid := forward_to_turn self in
  step self =
    (self ← turn_to_forward mid;
     let self := set_curr_time self (curr_time self + dt self) in
     drive ← getitem (dn_drives self) (curr_state self);
     Ok (self, (curr_state self, drive)))
  /\ (curr_state mid <> FORWARD <-> u > p_nochange)
  /\ (u > p_nochange ->
      mid = Build sg.2 (dt self) (init_time self) (curr_time self) sg.1
              (Some dg.1) (Some (curr_time self)) (dn_drives self)
              (turn_duration_mean self) (turn_duration_std self)
              (lambda_turn self)
      /\ sg.1 ∈ [TURN_LEFT; TURN_RIGHT]
      /\ draws (random_state self)
           [Rand; Normal (turn_duration_mean self) (turn_duration_std self);
            Choice 2]
           (random_state mid))
  /\ (~ u > p_nochange ->
      mid = set_random_state self g1
      /\ draws (random_state self) [Rand] (random_state mid)
      /\ step self =
           Ok (set_curr_time mid (curr_time self + dt self),
               (FORWARD, a_forward)))
  /\ (lambda_turn self = 0 ->
      forall n, exists self',
        run n self
        = Ok (self', repeat (FORWARD, a_forward, _curr_turn_duration self) n)
        /\ curr_state self' = FORWARD).
Proof.
  intros Hd Hge Hs p_nochange u g1 dg sg mid.
  apply Rge_not_lt in Hge.
  split; [exact (step_settled _ Hge)|].
  assert (Hleave : u > p_nochange ->
            mid = Build sg.2 (dt self) (init_time self) (curr_time self) sg.1
                    (Some dg.1) (Some (curr_time self)) (dn_drives self)
                    (turn_duration_mean self) (turn_duration_std self)
                    (lambda_turn self))
    by (intros Hu; exact (forward_to_turn_leave _ Hs Hu)).
  assert (Hstay : ~ u > p_nochange -> mid = set_random_state self g1)
    by (intros Hu; exact (forward_to_turn_stay _ Hs Hu)).
  split; [|split; [|split]].
  - split.
    + intros Hne. destruct (Rgt_dec u p_nochange) as [Hu|Hu]; [exact Hu|].
      rewrite (Hstay Hu) in Hne. simpl in Hne. contradiction.
    + intros Hu. rewrite (Hleave Hu). simpl.
      apply turn_not_forward, choice_turn.
  - intros Hu. split; [exact (Hleave Hu)|]. split; [apply choice_turn|].
    rewrite (Hleave Hu). simpl.
    exact (leave_draws self).
  - intros Hu. split; [exact (Hstay Hu)|]. split.
    + rewrite (Hstay Hu). simpl.
      eapply draws_cons; [apply draw_rand|constructor].
    + rewrite (Hstay Hu). exact (step_stay _ _ Hd Hge Hs Hu).
  - intros Hl n. exact (run_lambda_zero n self a_forward Hd Hs Hl).
Qed.

(** What the forward-to-turn block never touches. *)
Lemma forward_to_turn_frame (self : t G) :
  let mid := forward_to_turn self in
  curr_time mid = curr_time self
  /\ dt mid = dt self
  /\ init_time mid = init_time self
  /\ dn_drives mid = dn_drives self
  /\ lambda_turn mid = lambda_turn self
  /\ turn_duration_mean mid = turn_duration_mean self
  /\ turn_duration_std mid = turn_duration_std self.
Proof.
  unfold forward_to_turn.
  destruct (decide (curr_state self = FORWARD)); [|simpl; tauto].
  destruct (rs_rand (random_state self)) as [u g1]; simpl.
  destruct (Rgt_dec u _); [|simpl; tauto].
  destruct (rs_normal _ _ g1) as [d g2]; simpl.
  destruct (rs_choice TURN_LEFT [TURN_RIGHT] g2) as [s g3]; simpl; tauto.
Qed.

(** The turn-to-forward block in a turning state whose start time and
    duration are set. *)
Lemma turn_to_forward_turning (self : t G) (start d : R) :
  curr_state self ∈ [TURN_LEFT; TURN_RIGHT] ->
  curr_state_start_time self = Some start ->
  _curr_turn_duration self = Some d ->
  turn_to_forward self =
    Ok (if Rgt_dec (curr_time self - start) d
        then set_curr_state_start_time (set_curr_state self FORWARD)
               (curr_time self)
        else self).
Proof.
  intros Hin Hstart Hdur. unfold turn_to_forward.
  destruct (decide (curr_state self ∈ [TURN_LEFT; TURN_RIGHT]));
    [|contradiction].
  rewrite Hstart, Hdur. simpl.
  destruct (Rgt_dec (curr_time self - start) d); reflexivity.
Qed.

(** C3.  After the settling phase, when the state after the
    forward-to-turn block is a turning state: if the time before the call
    minus the start time exceeds the duration, the call resets the start
    time to the time before the call and returns [FORWARD] with the
    forward drive; otherwise it returns the turning state.  Both blocks
    see the time before the call, and [dt] is added last.  When the turn
    began in this very call its start time is the time before the call,
    and if its duration is negative the call returns [FORWARD]. *)
Theorem C3_turn_to_forward (self : t G) (a_forward : loc) (start d : R) :
  dn_drives self !! FORWARD = Some a_forward ->
  curr_time self >= init_time self ->
  let mid := forward_to_turn self in
  curr_state mid ∈ [TURN_LEFT; TURN_RIGHT] ->
  curr_state_start_time mid = Some start ->
  _curr_turn_duration mid = Some d ->
  let reverted :=
    set_curr_state_start_time (set_curr_state mid FORWARD) (curr_time self) in
  curr_time mid = curr_time self
  /\ (curr_time self - start > d ->
      step self =
        Ok (set_curr_time reverted (curr_time self + dt self),
            (FORWARD, a_forward)))
  /\ (~ curr_time self - start > d ->
      forall a, dn_drives self !! curr_state mid = Some a ->
      step self =
        Ok (set_curr_time mid (curr_time self + dt self),
            (curr_state mid, a)))
  /\ (curr_state self = FORWARD ->
      start = curr_time self
      /\ (d < 0 ->
          step self =
            Ok (set_curr_time reverted (curr_time self + dt self),
                (FORWARD, a_forward)))).
Proof.
  intros Hd Hge mid Hin Hstart Hdur reverted.
  apply Rge_not_lt in Hge.
  destruct (forward_to_turn_frame self)
    as (Ht & Hdt & _ & Hdn & _). fold mid in Ht, Hdt, Hdn.
  assert (Hrev : curr_time self - start > d ->
            step self =
              Ok (set_curr_time reverted (curr_time self + dt self),
                  (FORWARD, a_forward))).
  { intros Hgt. rewrite (step_settled _ Hge). fold mid.
    rewrite (turn_to_forward_turning _ _ _ Hin Hstart Hdur), Ht.
    destruct (Rgt_dec (curr_time self - start) d); [|contradiction].
    simpl. rewrite Ht, Hdt, Hdn, (getitem_Some _ _ _ Hd). reflexivity. }
  split; [exact Ht|]. split; [exact Hrev|]. split.
  - intros Hle a Ha. rewrite (step_settled _ Hge). fold mid.
    rewrite (turn_to_forward_turning _ _ _ Hin Hstart Hdur), Ht.
    destruct (Rgt_dec (curr_time self - start) d); [contradiction|].
    simpl. rewrite Ht, Hdt, Hdn, (getitem_Some _ _ _ Ha). reflexivity.
  - intros Hs.
    assert (Hu : (rs_rand (random_state self)).1
                 > exp (- lambda_turn self * dt self)).
    { destruct (Rgt_dec (rs_rand (random_state self)).1
                  (exp (- lambda_turn self * dt self))) as [Hu|Hu];
        [exact Hu|].
      apply turn_not_forward in Hin. unfold mid in Hin.
      rewrite (forward_to_turn_stay _ Hs Hu) in Hin. simpl in Hin.
      contradiction. }
    assert (E : start = curr_time self).
    { unfold mid in Hstart. rewrite (forward_to_turn_leave _ Hs Hu) in Hstart.
      simpl in Hstart. congruence. }
    split; [exact E|]. intros Hneg. apply Hrev. rewrite E. lra.
Qed.

End ControllerFacts.

Lemma C1_settling_phase_witness :
  let self := (default_controller [0.999; - 5; 0.2]).2 in
  REC.dn_drives self !! FORWARD = Some 0%nat
  /\ REC.curr_time self < REC.init_time self
  /\ REC.step self = Ok (REC.set_curr_time self (0 + 0.01), (FORWARD, 0%nat)).
Proof.
  intros self.
  assert (Hd : REC.dn_drives self !! FORWARD = Some 0%nat) by reflexivity.
  assert (Hlt : REC.curr_time self < REC.init_time self) by (simpl; lra).
  split; [exact Hd|split; [exact Hlt|]].
  exact (proj1 (C1_settling_phase _ _ Hd Hlt)).
Defined.

(** ** A scripted run: a turn of negative duration *)

Lemma exp_small_tick : exp (- 1 * 0.01) < 0.999.
Proof.
  replace (- 1 * 0.01) with (- (1 * 0.01)) by lra. rewrite exp_Ropp.
  replace (1 * 0.01) with 0.01 by lra.
  assert (Hlow : 1 + 0.01 < exp 0.01) by (apply exp_ineq1; lra).
  apply Rlt_trans with (/ (1 + 0.01)).
  - apply Rinv_lt_contravar; [|exact Hlow].
    apply Rmult_lt_0_compat; lra.
  - apply (Rmult_lt_reg_l (1 + 0.01)); [lra|].
    rewrite Rinv_r by lra. lra.
Qed.

Lemma settled_controller_leaves :
  (rs_rand (REC.random_state settled_controller)).1
  > exp (- REC.lambda_turn settled_controller * REC.dt settled_controller).
Proof.
  change (Scripted.unit_interval 0.999 > exp (- 1 * 0.01)).
  unfold Scripted.unit_interval. pose proof exp_small_tick.
  destruct (Rle_dec 0 0.999); [destruct (Rlt_dec 0.999 1)|]; lra.
Qed.

Lemma settled_controller_mid :
  REC.forward_to_turn settled_controller
  = REC.Build (@nil R) 0.01 0.1 0.1 TURN_LEFT (Some (0.4 + 0.1 * - 5)) (Some 0.1)
      (REC.dn_drives settled_controller) 0.4 0.1 1.
Proof.
  rewrite (forward_to_turn_leave settled_controller eq_refl
             settled_controller_leaves).
  change (REC.Build (@nil R) 0.01 0.1 0.1
            (if Rlt_dec 0.2 (1 / 2) then TURN_LEFT else TURN_RIGHT)
            (Some (0.4 + 0.1 * - 5)) (Some 0.1)
            (REC.dn_drives settled_controller) 0.4 0.1 1 
          = REC.Build (@nil R) 0.01 0.1 0.1 TURN_LEFT (Some (0.4 + 0.1 * - 5))
              (Some 0.1) (REC.dn_drives settled_controller) 0.4 0.1 1).
  destruct (Rlt_dec 0.2 (1 / 2)); [reflexivity|lra].
Qed.

Lemma C2_forward_to_turn_witness :
  REC.dn_drives settled_controller !! FORWARD = Some 0%nat
  /\ REC.curr_time settled_controller >= REC.init_time settled_controller
  /\ REC.curr_state settled_controller = FORWARD
  /\ (REC.curr_state (REC.forward_to_turn settled_controller) <> FORWARD
      <-> (rs_rand (REC.random_state settled_controller)).1
          > exp (- REC.lambda_turn settled_controller
                 * REC.dt settled_controller)).
Proof.
  assert (Hd : REC.dn_drives settled_controller !! FORWARD = Some 0%nat)
    by reflexivity.
  assert (Hge : REC.curr_time settled_controller
                >= REC.init_time settled_controller).
  { change (0.1 >= 0.1). lra. }
  assert (Hs : REC.curr_state settled_controller = FORWARD) by reflexivity.
  split; [exact Hd|]. split; [exact Hge|]. split; [exact Hs|].
  exact (proj1 (proj2 (C2_forward_to_turn settled_controller 0%nat Hd Hge Hs))).
Defined.

Lemma C3_turn_to_forward_witness :
  let mid := REC.forward_to_turn settled_controller in
  REC.dn_drives settled_controller !! FORWARD = Some 0%nat
  /\ REC.curr_time settled_controller >= REC.init_time settled_controller
  /\ REC.curr_state mid ∈ [TURN_LEFT; TURN_RIGHT]
  /\ REC.curr_state_start_time mid = Some 0.1
  /\ REC._curr_turn_duration mid = Some (0.4 + 0.1 * - 5)
  /\ REC.step settled_controller
     = Ok (REC.set_curr_time
             (REC.set_curr_state_start_time
                (REC.set_curr_state mid FORWARD) 0.1)
             (0.1 + 0.01),
           (FORWARD, 0%nat)).
Proof.
  intros mid.
  assert (Hd : REC.dn_drives settled_controller !! FORWARD = Some 0%nat)
    by reflexivity.
  assert (Hge : REC.curr_time settled_controller
                >= REC.init_time settled_controller).
  { change (0.1 >= 0.1). lra. }
  assert (Hin : REC.curr_state mid ∈ [TURN_LEFT; TURN_RIGHT]).
  { unfold mid. rewrite settled_controller_mid. apply list_elem_of_In.
    now left. }
  assert (Hstart : REC.curr_state_start_time mid = Some 0.1).
  { unfold mid. rewrite settled_controller_mid. reflexivity. }
  assert (Hdur : REC._curr_turn_duration mid = Some (0.4 + 0.1 * - 5)).
  { unfold mid. rewrite settled_controller_mid. reflexivity. }
  assert (Hneg : 0.4 + 0.1 * - 5 < 0) by lra.
  repeat (split; [assumption|]).
  exact (proj2 (proj2 (proj2 (proj2
           (C3_turn_to_forward settled_controller 0%nat 0.1 (0.4 + 0.1 * - 5)
              Hd Hge Hin Hstart Hdur))) eq_refl) Hneg).
Defined.

(** A turn of positive duration is returned to the caller. *)
Example turning_controller_step :
  REC.step turning_controller
  = Ok (REC.Build (@nil R) 0.01 0.1 (0.1 + 0.01) TURN_RIGHT
          (Some (0.4 + 0.1 * 1)) (Some 0.1)
          (REC.dn_drives turning_controller) 0.4 0.1 1,
        (TURN_RIGHT, 2%nat)).
Proof.
  assert (Hu : (rs_rand (REC.random_state turning_controller)).1
               > exp (- REC.lambda_turn turning_controller
                      * REC.dt turning_controller)).
  { change (Scripted.unit_interval 0.999 > exp (- 1 * 0.01)).
    unfold Scripted.unit_interval. pose proof exp_small_tick.
    destruct (Rle_dec 0 0.999); [destruct (Rlt_dec 0.999 1)|]; lra. }
  assert (Hmid : REC.forward_to_turn turning_controller
                 = REC.Build (@nil R) 0.01 0.1 0.1 TURN_RIGHT
                     (Some (0.4 + 0.1 * 1)) (Some 0.1)
                     (REC.dn_drives turning_controller) 0.4 0.1 1).
  { rewrite (forward_to_turn_leave turning_controller eq_refl Hu).
    change (REC.Build (@nil R) 0.01 0.1 0.1
              (if Rlt_dec 0.9 (1 / 2) then TURN_LEFT else TURN_RIGHT)
              (Some (0.4 + 0.1 * 1)) (Some 0.1)
              (REC.dn_drives turning_controller) 0.4 0.1 1
            = REC.Build (@nil R) 0.01 0.1 0.1 TURN_RIGHT
                (Some (0.4 + 0.1 * 1)) (Some 0.1)
                (REC.dn_drives turning_controller) 0.4 0.1 1).
    destruct (Rlt_dec 0.9 (1 / 2)); [lra|reflexivity]. }
  rewrite step_settled by (change (~ 0.1 < 0.1); lra).
  rewrite Hmid.
  rewrite (turn_to_forward_turning _ 0.1 (0.4 + 0.1 * 1));
    [|apply list_elem_of_In; right; now left|reflexivity|reflexivity].
  change (REC.curr_time _ - 0.1) with (0.1 - 0.1).
  destruct (Rgt_dec (0.1 - 0.1) (0.4 + 0.1 * 1)); [lra|].
  reflexivity.
Qed.

(** ** Reachable states *)

Section ControllerInvariant.
Context {G : Type} `{RandomSource G}.
Import RandomExplorationController.

Lemma not_turn_forward_or_stop (s : WalkingState) :
  s ∉ [TURN_LEFT; TURN_RIGHT] -> s = FORWARD \/ s = STOP.
Proof.
  intros Hn. destruct s; auto; exfalso; apply Hn, list_elem_of_In; simpl; auto.
Qed.

Lemma turn_not_stop (s : WalkingState) :
  s ∈ [TURN_LEFT; TURN_RIGHT] -> s <> STOP.
Proof.
  intros Hs ->. apply list_elem_of_In in Hs. simpl in Hs.
  intuition congruence.
Qed.

Lemma init_dn_drives (h : heap) dt0 fwd left right mean std lam seed it :
  dn_drives (__init__ (G := G) h dt0 fwd left right mean std lam seed it).2
  = {[ FORWARD := length h;
       TURN_LEFT := S (length h);
       TURN_RIGHT := S (S (length h)) ]}.
Proof.
  unfold __init__, np_array. simpl.
  rewrite !length_app. simpl.
  replace (length h + 1)%nat with (S (length h)) by lia.
  replace (S (length h) + 1)%nat with (S (S (length h))) by lia.
  reflexivity.
Qed.

Lemma init_inv (h : heap) dt0 fwd left right mean std lam seed it :
  inv (__init__ h dt0 fwd left right mean std lam seed it).2.
Proof.
  split; [|split].
  - discriminate.
  - intros s Hs. rewrite init_dn_drives.
    destruct s; [eexists; reflexivity..|contradiction].
  - intros Hin. apply turn_not_forward in Hin. contradiction.
Qed.

Lemma forward_to_turn_inv (self : t G) :
  inv self -> inv (forward_to_turn self).
Proof.
  intros (Hstop & Hd & Hready).
  destruct (decide (curr_state self = FORWARD)) as [Hs|Hs];
    [|rewrite (forward_to_turn_not_forward _ Hs);
      exact (conj Hstop (conj Hd Hready))].
  destruct (Rgt_dec (rs_rand (random_state self)).1
              (exp (- lambda_turn self * dt self))) as [Hu|Hu].
  - rewrite (forward_to_turn_leave _ Hs Hu). split; [|split].
    + simpl. apply turn_not_stop, choice_turn.
    + exact Hd.
    + intros _. simpl. split; eexists; reflexivity.
  - rewrite (forward_to_turn_stay _ Hs Hu). split; [|split].
    + exact Hstop.
    + exact Hd.
    + exact Hready.
Qed.

Lemma turn_to_forward_inv (self : t G) :
  inv self ->
  exists self',
    turn_to_forward self = Ok self'
    /\ inv self'
    /\ dn_drives self' = dn_drives self
    /\ curr_time self' = curr_time self
    /\ dt self' = dt self.
Proof.
  intros (Hstop & Hd & Hready).
  destruct (decide (curr_state self ∈ [TURN_LEFT; TURN_RIGHT])) as [Hin|Hin].
  - destruct (Hready Hin) as ([start Hstart] & [d Hdur]).
    rewrite (turn_to_forward_turning _ _ _ Hin Hstart Hdur).
    eexists. split; [reflexivity|].
    destruct (Rgt_dec (curr_time self - start) d).
    + split; [|repeat split].
      split; [discriminate|split; [exact Hd|]].
      intros Hin'. apply turn_not_forward in Hin'. simpl in Hin'.
      contradiction.
    + split; [exact (conj Hstop (conj Hd Hready))|repeat split].
  - destruct (not_turn_forward_or_stop _ Hin) as [Hs|Hs]; [|contradiction].
    rewrite (turn_to_forward_forward _ Hs).
    eexists. split; [reflexivity|].
    split; [exact (conj Hstop (conj Hd Hready))|repeat split].
Qed.

(** From a state of the invariant a call succeeds, returns the dict
    entry of a state other than [STOP], and leads to a state of the
    invariant. *)
Lemma step_inv (self : t G) :
  inv self ->
  exists self' s a,
    step self = Ok (self', (s, a))
    /\ inv self'
    /\ s <> STOP
    /\ dn_drives self !! s = Some a
    /\ dn_drives self' = dn_drives self.
Proof.
  intros Hinv. pose proof Hinv as (Hstop & Hd & Hready).
  destruct (Rlt_dec (curr_time self) (init_time self)) as [Hlt|Hge].
  - destruct (Hd FORWARD) as [a Ha]; [discriminate|].
    exists (set_curr_time self (curr_time self + dt self)), FORWARD, a.
    split; [|split; [exact (conj Hstop (conj Hd Hready))|]].
    + rewrite (step_settling _ Hlt). simpl. rewrite (getitem_Some _ _ _ Ha).
      reflexivity.
    + split; [discriminate|split; [exact Ha|reflexivity]].
  - destruct (turn_to_forward_inv _ (forward_to_turn_inv _ Hinv))
      as (post & Epost & (Hstop' & Hd' & Hready') & Hdn & _).
    destruct (forward_to_turn_frame self) as (_ & _ & _ & Hdn' & _).
    destruct (Hd' (curr_state post) Hstop') as [a Ha].
    exists (set_curr_time post (curr_time post + dt post)),
      (curr_state post), a.
    split; [|split; [exact (conj Hstop' (conj Hd' Hready'))|]].
    + rewrite (step_settled _ Hge), Epost. simpl.
      rewrite (getitem_Some _ _ _ Ha). reflexivity.
    + split; [exact Hstop'|]. split; [|simpl; congruence].
      rewrite <- Hdn', <- Hdn. exact Ha.
Qed.

Lemma run_inv (n : nat) : forall self : t G,
  inv self ->
  exists self' outs,
    run n self = Ok (self', outs)
    /\ inv self'
    /\ dn_drives self' = dn_drives self
    /\ Forall (fun o => o.1.1 <> STOP /\ dn_drives self !! o.1.1 = Some o.1.2)
         outs.
Proof.
  induction n as [|n IH]; intros self Hinv.
  - exists self, []. split; [reflexivity|].
    split; [exact Hinv|split; [reflexivity|constructor]].
  - destruct (step_inv _ Hinv) as (self1 & s & a & E1 & Hinv1 & Hs & Ha & Hdn1).
    destruct (IH _ Hinv1) as (self' & outs & E' & Hinv' & Hdn' & Houts).
    exists self', ((s, a, _curr_turn_duration self1) :: outs).
    split; [|split; [exact Hinv'|split; [congruence|]]].
    + simpl. rewrite E1. simpl. rewrite E'. reflexivity.
    + constructor; [split; assumption|].
      rewrite Hdn1 in Houts. exact Houts.
Qed.

End ControllerInvariant.

Section ControllerSafety.
Context {G : Type} `{RandomSource G}.
Import RandomExplorationController.

Lemma not_stop_elem (s : WalkingState) :
  s <> STOP -> s ∈ [FORWARD; TURN_LEFT; TURN_RIGHT].
Proof.
  intros Hs. apply list_elem_of_In.
  destruct s; simpl; auto.
Qed.

(** C7.  A fresh instance is in [FORWARD] and its dict has no entry for
    [STOP].  Whatever the number of calls, every call succeeds, every
    returned state and the current state are among [FORWARD],
    [TURN_LEFT], [TURN_RIGHT], and the lookup of the current state in
    [dn_drives] is defined, so the next call succeeds too. *)
Theorem C7_stop_unreachable (h : heap) (dt0 : R) (fwd left right : R * R)
    (mean std lam : R) (seed : Z) (it : R) (n : nat) :
  let self := (__init__ (G := G) h dt0 fwd left right mean std lam seed it).2 in
  curr_state self = FORWARD
  /\ dn_drives self !! STOP = None
  /\ exists self' outs,
      run n self = Ok (self', outs)
      /\ curr_state self' ∈ [FORWARD; TURN_LEFT; TURN_RIGHT]
      /\ Forall (fun o => o.1.1 ∈ [FORWARD; TURN_LEFT; TURN_RIGHT]) outs
      /\ dn_drives self' !! STOP = None
      /\ is_Some (dn_drives self' !! curr_state self')
      /\ is_Ok (step self').
Proof.
  intros self.
  assert (Hstop : dn_drives self !! STOP = None)
    by (unfold self; rewrite init_dn_drives; reflexivity).
  split; [reflexivity|]. split; [exact Hstop|].
  destruct (run_inv n self (init_inv _ _ _ _ _ _ _ _ _ _))
    as (self' & outs & E & Hinv & Hdn & Houts).
  exists self', outs. split; [exact E|].
  pose proof Hinv as (Hs & Hd & _).
  split; [exact (not_stop_elem _ Hs)|].
  split; [|split; [congruence|split; [exact (Hd _ Hs)|]]].
  - eapply Forall_impl; [exact Houts|].
    intros o [Ho _]. exact (not_stop_elem _ Ho).
  - destruct (step_inv _ Hinv) as (? & ? & ? & -> & _). exact I.
Qed.

(** C10.  A fresh instance has neither a duration nor a start time.
    Whatever the number of calls: if the current state is a turning
    state, both are set; in the next call the comparison of the
    turn-to-forward block, when it is made, is between numbers; and the
    next call raises nothing. *)
Theorem C10_turn_attributes_set (h : heap) (dt0 : R) (fwd left right : R * R)
    (mean std lam : R) (seed : Z) (it : R) (n : nat) :
  let self := (__init__ (G := G) h dt0 fwd left right mean std lam seed it).2 in
  _curr_turn_duration self = None
  /\ curr_state_start_time self = None
  /\ exists self' outs,
      run n self = Ok (self', outs)
      /\ (curr_state self' ∈ [TURN_LEFT; TURN_RIGHT] ->
          is_Some (_curr_turn_duration self')
          /\ is_Some (curr_state_start_time self'))
      /\ (let mid := forward_to_turn self' in
          curr_state mid ∈ [TURN_LEFT; TURN_RIGHT] ->
          exists start d,
            curr_state_start_time mid = Some start
            /\ _curr_turn_duration mid = Some d
            /\ turn_to_forward mid =
                 Ok (if Rgt_dec (curr_time mid - start) d
                     then set_curr_state_start_time
                            (set_curr_state mid FORWARD) (curr_time mid)
                     else mid))
      /\ is_Ok (turn_to_forward (forward_to_turn self'))
      /\ forall e, step self' <> Raise e.
Proof.
  intros self. split; [reflexivity|]. split; [reflexivity|].
  destruct (run_inv n self (init_inv _ _ _ _ _ _ _ _ _ _))
    as (self' & outs & E & Hinv & _).
  exists self', outs. split; [exact E|].
  pose proof Hinv as (_ & _ & Hready).
  pose proof (forward_to_turn_inv _ Hinv) as Hmid.
  split; [|split; [|split]].
  - intros Hin. destruct (Hready Hin). split; assumption.
  - intros mid Hin. destruct Hmid as (_ & _ & Hready').
    destruct (Hready' Hin) as ([start Hstart] & [d Hdur]).
    exists start, d. split; [exact Hstart|]. split; [exact Hdur|].
    exact (turn_to_forward_turning _ _ _ Hin Hstart Hdur).
  - destruct (turn_to_forward_inv _ Hmid) as (? & -> & _). exact I.
  - intros e. destruct (step_inv _ Hinv) as (? & ? & ? & -> & _).
    discriminate.
Qed.

End ControllerSafety.

(** ** Two instances, one heap *)

Section ControllerDeterminism.
Context {G : Type} `{RandomSource G}.
Import RandomExplorationController.

Lemma forward_to_turn_relabel (self : t G) d :
  forward_to_turn (relabel self d) = relabel (forward_to_turn self) d.
Proof.
  unfold forward_to_turn. simpl.
  destruct (decide (curr_state self = FORWARD)); [|reflexivity].
  destruct (rs_rand (random_state self)) as [u g1]; simpl.
  destruct (Rgt_dec u _); [|reflexivity].
  destruct (rs_normal _ _ g1) as [x g2]; simpl.
  destruct (rs_choice TURN_LEFT [TURN_RIGHT] g2) as [s g3]; reflexivity.
Qed.

Lemma turn_to_forward_relabel (self : t G) d :
  turn_to_forward (relabel self d)
  = (x ← turn_to_forward self; Ok (relabel x d)).
Proof.
  unfold turn_to_forward. simpl.
  destruct (decide (curr_state self ∈ [TURN_LEFT; TURN_RIGHT]));
    [|reflexivity].
  destruct (curr_state_start_time self) as [start|]; [|reflexivity]. simpl.
  destruct (_curr_turn_duration self) as [x|]; [|reflexivity].
  destruct (Rgt_dec (curr_time self - start) x); reflexivity.
Qed.

Lemma step_relabel (self self' : t G) d s a b :
  step self = Ok (self', (s, a)) ->
  d !! s = Some b ->
  step (relabel self d) = Ok (relabel self' d, (s, b)).
Proof.
  unfold step. simpl.
  destruct (Rlt_dec (curr_time self) (init_time self)).
  - destruct (getitem (dn_drives self) FORWARD); [|discriminate].
    simpl. intros [= <- <- <-] Hb.
    rewrite (getitem_Some _ _ _ Hb). reflexivity.
  - rewrite forward_to_turn_relabel, turn_to_forward_relabel.
    destruct (turn_to_forward (forward_to_turn self)) as [post|];
      [|discriminate].
    simpl.
    destruct (getitem (dn_drives post) (curr_state post)); [|discriminate].
    simpl. intros [= <- <- <-] Hb.
    rewrite (getitem_Some _ _ _ Hb). reflexivity.
Qed.

Lemma run_relabel (n : nat) : forall (self self' : t G) d outs,
  run n self = Ok (self', outs) ->
  Forall (fun o => is_Some (d !! o.1.1)) outs ->
  run n (relabel self d) = Ok (relabel self' d, relabel_outs d outs).
Proof.
  induction n as [|n IH]; intros self self' d outs; simpl.
  - intros [= <- <-] _. reflexivity.
  - destruct (step self) as [[self1 [s a]]|] eqn:E1; [|discriminate]. simpl.
    destruct (run n self1) as [[last outs1]|] eqn:E2; [|discriminate]. simpl.
    intros [= <- <-] Hall.
    apply Forall_cons in Hall as [[b Hb] Hall]. simpl in Hb.
    rewrite (step_relabel _ _ _ _ _ _ E1 Hb). simpl.
    rewrite (IH _ _ _ _ E2 Hall). simpl. rewrite Hb. reflexivity.
Qed.

Lemma draws_app (g g1 g2 : G) (ks ks' : list draw_kind) :
  draws g ks g1 -> draws g1 ks' g2 -> draws g (ks ++ ks') g2.
Proof.
  intros H1 H2. induction H1 as [|g k ks g1 g3 Hd _ IH]; [exact H2|].
  simpl. exact (draws_cons _ _ _ _ _ Hd (IH H2)).
Qed.

Lemma turn_to_forward_random_state (self self' : t G) :
  turn_to_forward self = Ok self' -> random_state self' = random_state self.
Proof.
  unfold turn_to_forward.
  destruct (decide (curr_state self ∈ [TURN_LEFT; TURN_RIGHT]));
    [|now intros [= <-]].
  destruct (curr_state_start_time self) as [start|]; [|discriminate]. simpl.
  destruct (_curr_turn_duration self) as [x|]; [|discriminate].
  destruct (Rgt_dec (curr_time self - start) x); now intros [= <-].
Qed.

Lemma init_heap (h : heap) dt0 fwd left right mean std lam seed it :
  (__init__ (G := G) h dt0 fwd left right mean std lam seed it).1
  = h ++ [[fwd.1; fwd.2]; [left.1; left.2]; [right.1; right.2]].
Proof. unfold __init__, np_array. simpl. rewrite <- !app_assoc. reflexivity. Qed.

Lemma init_relabel (h h' : heap) dt0 fwd left right mean std lam seed it :
  (__init__ (G := G) h' dt0 fwd left right mean std lam seed it).2
  = relabel (__init__ h dt0 fwd left right mean std lam seed it).2
      (dn_drives (__init__ (G := G) h' dt0 fwd left right mean std lam seed it).2).
Proof. reflexivity. Qed.

Lemma lookup_after (h k : heap) (i : nat) :
  (h ++ k) !! (length h + i)%nat = k !! i.
Proof.
  rewrite lookup_app_r by lia. f_equal. lia.
Qed.

Lemma drives_at_lookup (k : nat) (s : WalkingState) (a : loc) :
  drives_at k !! s = Some a ->
  a = (k + Z.to_nat (WalkingState_value s))%nat /\ s <> STOP.
Proof.
  destruct s; intros Ha; vm_compute in Ha; inversion Ha; subst;
    (split; [simpl; lia|discriminate]).
Qed.

(** A call moves the generator by exactly the draws [call_draws] lists. *)
Lemma step_call_draws (self self' : t G) out :
  step self = Ok (self', out) ->
  draws (random_state self) (call_draws self) (random_state self').
Proof.
  unfold step, call_draws.
  destruct (Rlt_dec (curr_time self) (init_time self)).
  - destruct (getitem _ _); [|discriminate]. simpl. intros [= <- _].
    constructor.
  - destruct (turn_to_forward (forward_to_turn self)) as [post|] eqn:E;
      [|discriminate].
    simpl. destruct (getitem _ _); [|discriminate]. simpl. intros [= <- _].
    simpl. rewrite (turn_to_forward_random_state _ _ E).
    destruct (decide (curr_state self = FORWARD)) as [Hs|Hs];
      [|rewrite (forward_to_turn_not_forward _ Hs); constructor].
    destruct (Rgt_dec (rs_rand (random_state self)).1
                (exp (- lambda_turn self * dt self))) as [Hu|Hu].
    + rewrite (forward_to_turn_leave _ Hs Hu). exact (leave_draws self).
    + rewrite (forward_to_turn_stay _ Hs Hu). simpl.
      eapply draws_cons; [apply draw_rand|constructor].
Qed.

Lemma run_kinds_draws (n : nat) : forall (self self' : t G) outs,
  run n self = Ok (self', outs) ->
  draws (random_state self) (run_kinds n self) (random_state self').
Proof.
  induction n as [|n IH]; intros self self' outs.
  - simpl. intros [= <- _]. constructor.
  - change (run (S n) self) with
      ('(self, out) ← step self;
       '(last, outs) ← run n self;
       Ok (last, (out.1, out.2, _curr_turn_duration self) :: outs)).
    change (run_kinds (S n) self) with
      (call_draws self
       ++ match step self with
          | Ok (self, _) => run_kinds n self
          | Raise _ => []
          end).
    destruct (step self) as [[self1 out]|] eqn:E1; [|discriminate]. simpl.
    destruct (run n self1) as [[last outs1]|] eqn:E2; [|discriminate]. simpl.
    intros [= <- _].
    exact (draws_app _ _ _ _ _ (step_call_draws _ _ _ E1) (IH _ _ _ E2)).
Qed.

(** The draws do not depend on where the drives are stored. *)
Lemma run_kinds_relabel (n : nat) : forall (self self' : t G) d outs,
  run n self = Ok (self', outs) ->
  Forall (fun o => is_Some (d !! o.1.1)) outs ->
  run_kinds n (relabel self d) = run_kinds n self.
Proof.
  induction n as [|n IH]; intros self self' d outs; [reflexivity|].
  change (run (S n) self) with
    ('(self, out) ← step self;
     '(last, outs) ← run n self;
     Ok (last, (out.1, out.2, _curr_turn_duration self) :: outs)).
  change (run_kinds (S n) (relabel self d)) with
    (call_draws self
     ++ match step (relabel self d) with
        | Ok (self, _) => run_kinds n self
        | Raise _ => []
        end).
  change (run_kinds (S n) self) with
    (call_draws self
     ++ match step self with
        | Ok (self, _) => run_kinds n self
        | Raise _ => []
        end).
  destruct (step self) as [[self1 [s a]]|] eqn:E1; [|discriminate]. simpl.
  destruct (run n self1) as [[last outs1]|] eqn:E2; [|discriminate]. simpl.
  intros [= <- <-] Hall.
  apply Forall_cons in Hall as [[b Hb] Hall]. simpl in Hb.
  rewrite (step_relabel _ _ _ _ _ _ E1 Hb).
  rewrite (IH _ _ _ _ E2 Hall). reflexivity.
Qed.

(** The log of an instance built on [h], seen through the heap
    [__init__] returned: the drives read as the tuples given. *)
Lemma observe_init (h : heap) (fwd left right : R * R)
    (outs : list (WalkingState * loc * option R)) :
  Forall (fun o => o.1.1 <> STOP /\ drives_at (length h) !! o.1.1 = Some o.1.2)
    outs ->
  observe (h ++ [[fwd.1; fwd.2]; [left.1; left.2]; [right.1; right.2]]) outs
  = map (fun o => (o.1.1, drive_tuple fwd left right o.1.1, o.2)) outs.
Proof.
  intros Hall. induction Hall as [|[[s a] d] outs [Hs Ha] _ IH];
    [reflexivity|].
  simpl in Hs, Ha. apply drives_at_lookup in Ha as [-> _].
  simpl. rewrite IH. f_equal. f_equal. f_equal.
  rewrite lookup_after. destruct s; try contradiction; reflexivity.
Qed.

(** C5.  Two instances built with the same arguments -- a standard
    deviation that is not negative -- and the same seed, one that
    [RandomState] accepts, each on a heap of its own, start from the
    generator [rs_seed seed].  Run for any number [n] of calls, both
    succeed, and their logs -- returned states, contents of the returned
    drives, turn durations held after each call -- are equal, the drives
    reading as the tuples given to [__init__]; their generators end
    equal.  All the randomness comes from the seeded generator: after
    the [n] calls it is [rs_seed seed] moved by exactly the draws of
    these calls, call after call, with no seeding in between; the two
    runs make the same draws; and the next call moves the generator by
    exactly its own draws -- none while settling or turning, the uniform
    sample in [FORWARD], followed by the duration and the direction when
    the machine leaves [FORWARD]. *)
Theorem C5_determinism (h_a h_b : heap) (dt0 : R) (fwd left right : R * R)
    (mean std lam : R) (seed : Z) (it : R) (n : nat) :
  0 <= std ->
  (0 <= seed < 2 ^ 32)%Z ->
  let ia := __init__ (G := G) h_a dt0 fwd left right mean std lam seed it in
  let ib := __init__ (G := G) h_b dt0 fwd left right mean std lam seed it in
  random_state ia.2 = rs_seed seed
  /\ random_state ib.2 = rs_seed seed
  /\ exists a' b' outs_a outs_b,
      run n ia.2 = Ok (a', outs_a)
      /\ run n ib.2 = Ok (b', outs_b)
      /\ observe ia.1 outs_a = observe ib.1 outs_b
      /\ observe ia.1 outs_a
         = map (fun o => (o.1.1, drive_tuple fwd left right o.1.1, o.2)) outs_a
      /\ Forall (fun o => is_Some o.1.2) (observe ia.1 outs_a)
      /\ random_state a' = random_state b'
      /\ draws (rs_seed seed) (run_kinds n ia.2) (random_state a')
      /\ draws (rs_seed seed) (run_kinds n ib.2) (random_state b')
      /\ run_kinds n ia.2 = run_kinds n ib.2
      /\ exists a'' out,
          step a' = Ok (a'', out)
          /\ draws (random_state a') (call_draws a') (random_state a'').
Proof.
  intros _ _ ia ib. split; [reflexivity|]. split; [reflexivity|].
  pose proof (run_inv n ia.2 (init_inv _ _ _ _ _ _ _ _ _ _)) as Hrun.
  destruct Hrun as (a' & outs & Ea & Hinv & _ & Houts).
  assert (Hda : dn_drives ia.2 = drives_at (length h_a))
    by apply init_dn_drives.
  assert (Hdb : dn_drives ib.2 = drives_at (length h_b))
    by apply init_dn_drives.
  assert (Hha : ia.1 = h_a ++ [[fwd.1; fwd.2]; [left.1; left.2];
                               [right.1; right.2]]) by apply init_heap.
  assert (Hhb : ib.1 = h_b ++ [[fwd.1; fwd.2]; [left.1; left.2];
                               [right.1; right.2]]) by apply init_heap.
  rewrite Hda in Houts.
  assert (Hnostop : Forall (fun o => o.1.1 <> STOP) outs).
  { eapply Forall_impl; [exact Houts|]. intros o [Ho _]. exact Ho. }
  assert (Hdef : Forall (fun o => is_Some (dn_drives ib.2 !! o.1.1)) outs).
  { rewrite Hdb. eapply Forall_impl; [exact Hnostop|]. intros o.
    simpl. destruct (o.1.1); intros Ho;
      [eexists; reflexivity..|contradiction]. }
  assert (Eb : run n ib.2
               = Ok (relabel a' (drives_at (length h_b)),
                     relabel_outs (drives_at (length h_b)) outs)).
  { rewrite <- Hdb. unfold ib at 1. rewrite (init_relabel h_a).
    apply run_relabel; [exact Ea|exact Hdef]. }
  assert (Hkinds : run_kinds n ia.2 = run_kinds n ib.2).
  { unfold ib. rewrite (init_relabel h_a). symmetry.
    exact (run_kinds_relabel n _ _ _ _ Ea Hdef). }
  assert (Houts_b : Forall
                      (fun o => o.1.1 <> STOP
                                /\ drives_at (length h_b) !! o.1.1 = Some o.1.2)
                      (relabel_outs (drives_at (length h_b)) outs)).
  { unfold relabel_outs. apply List.Forall_map.
    eapply Forall_impl; [exact Hnostop|]. intros o'. simpl.
    destruct (o'.1.1); intros Ho'; (split; [exact Ho'|]);
      try contradiction; reflexivity. }
  pose proof (observe_init h_a fwd left right outs Houts) as Hobs_a.
  pose proof (observe_init h_b fwd left right _ Houts_b) as Hobs_b.
  rewrite <- Hha in Hobs_a. rewrite <- Hhb in Hobs_b.
  exists a', (relabel a' (drives_at (length h_b))), outs,
    (relabel_outs (drives_at (length h_b)) outs).
  split; [exact Ea|]. split; [exact Eb|].
  split;
    [|split; [exact Hobs_a
             |split; [|split; [reflexivity
                              |split; [|split; [|split; [exact Hkinds|]]]]]]].
  - rewrite Hobs_a, Hobs_b. unfold relabel_outs. rewrite map_map.
    reflexivity.
  - rewrite Hobs_a. apply List.Forall_map.
    eapply Forall_impl; [exact Hnostop|]. intros o'. simpl.
    destruct (o'.1.1); intros Ho'; try contradiction; eexists; reflexivity.
  - exact (run_kinds_draws n _ _ _ Ea).
  - exact (run_kinds_draws n _ _ _ Eb).
  - destruct (step_inv _ Hinv) as (a'' & s & l & E & _).
    exists a'', (s, l). split; [exact E|].
    exact (step_call_draws _ _ _ E).
Qed.

End ControllerDeterminism.

Lemma C5_determinism_witness :
  let ia :=
    REC.__init__ (G := list R) [] 0.01 (1, 1) (- 0.4, 1.2) (1.2, - 0.4)
      0.4 0.1 1 0%Z 0.1 in
  let ib :=
    REC.__init__ (G := list R) [[7; 7]] 0.01 (1, 1) (- 0.4, 1.2) (1.2, - 0.4)
      0.4 0.1 1 0%Z 0.1 in
  0 <= 0.1
  /\ (0 <= 0 < 2 ^ 32)%Z
  /\ exists a' b' outs_a outs_b,
      run 12 ia.2 = Ok (a', outs_a)
      /\ run 12 ib.2 = Ok (b', outs_b)
      /\ observe ia.1 outs_a = observe ib.1 outs_b
      /\ REC.random_state a' = REC.random_state b'.
Proof.
  intros ia ib.
  assert (Hstd : 0 <= 0.1) by lra.
  assert (Hseed : (0 <= 0 < 2 ^ 32)%Z) by lia.
  split; [exact Hstd|]. split; [exact Hseed|].
  destruct (C5_determinism (G := list R) [] [[7; 7]] 0.01 (1, 1)
              (- 0.4, 1.2) (1.2, - 0.4) 0.4 0.1 1 0%Z 0.1 12 Hstd Hseed)
    as (_ & _ & a' & b' & outs_a & outs_b & Ea & Eb & Hobs & _ & _ & Hg & _).
  exists a', b', outs_a, outs_b.
  split; [exact Ea|]. split; [exact Eb|]. split; [exact Hobs|exact Hg].
Defined.

(** ** The returned drive and the dict *)

Section ControllerAliasing.
Context {G : Type} `{RandomSource G}.
Import RandomExplorationController.

Lemma getitem_Ok (d : gmap WalkingState loc) k a :
  getitem d k = Ok a -> d !! k = Some a.
Proof. unfold getitem. destruct (d !! k); now intros [= <-]. Qed.

Lemma turn_to_forward_dn_drives (self self' : t G) :
  turn_to_forward self = Ok self' -> dn_drives self' = dn_drives self.
Proof.
  unfold turn_to_forward.
  destruct (decide (curr_state self ∈ [TURN_LEFT; TURN_RIGHT]));
    [|now intros [= <-]].
  destruct (curr_state_start_time self) as [start|]; [|discriminate]. simpl.
  destruct (_curr_turn_duration self) as [x|]; [|discriminate].
  destruct (Rgt_dec (curr_time self - start) x); now intros [= <-].
Qed.

(** A call leaves the dict as it is and returns one of its entries. *)
Lemma step_dn_drives (self self' : t G) s a :
  step self = Ok (self', (s, a)) ->
  dn_drives self' = dn_drives self /\ dn_drives self !! s = Some a.
Proof.
  unfold step.
  destruct (Rlt_dec (curr_time self) (init_time self)).
  - destruct (getitem _ _) as [b|] eqn:E; [|discriminate]. simpl.
    intros [= <- <- <-]. split; [reflexivity|exact (getitem_Ok _ _ _ E)].
  - destruct (turn_to_forward (forward_to_turn self)) as [post|] eqn:Ep;
      [|discriminate].
    simpl. destruct (getitem _ _) as [b|] eqn:E; [|discriminate]. simpl.
    intros [= <- <- <-]. apply getitem_Ok in E. simpl in *.
    apply turn_to_forward_dn_drives in Ep.
    destruct (forward_to_turn_frame self) as (_ & _ & _ & Hdn & _).
    rewrite <- Hdn, <- Ep. split; [reflexivity|exact E].
Qed.

(** However many calls: the dict stays as it is and every returned
    drive is the entry of the returned state. *)
Lemma run_dn_drives (n : nat) : forall (self self' : t G) outs,
  run n self = Ok (self', outs) ->
  dn_drives self' = dn_drives self
  /\ Forall (fun o => dn_drives self !! o.1.1 = Some o.1.2) outs.
Proof.
  induction n as [|n IH]; intros self self' outs; simpl.
  - intros [= <- <-]. split; [reflexivity|constructor].
  - destruct (step self) as [[self1 [s a]]|] eqn:E1; [|discriminate]. simpl.
    destruct (run n self1) as [[last outs1]|] eqn:E2; [|discriminate]. simpl.
    intros [= <- <-].
    destruct (step_dn_drives _ _ _ _ E1) as [Hdn1 Ha].
    destruct (IH _ _ _ E2) as [Hdn Hall]. rewrite Hdn1 in Hdn, Hall.
    split; [exact Hdn|]. constructor; [exact Ha|exact Hall].
Qed.

(** C6, as the code has it.  The drive a call returns is the array
    stored in [dn_drives] for the returned state, not a copy of it: an
    assignment to one of its elements is seen through the dict, and the
    later calls that return the same state return the same array.  The
    calls themselves never change the dict. *)
Theorem C6_returned_drive_is_dict_entry (self self' : t G)
    (s : WalkingState) (a : loc) :
  step self = Ok (self', (s, a)) ->
  dn_drives self' = dn_drives self
  /\ dn_drives self' !! s = Some a
  /\ (forall (h : heap) (arr : list R) (i : nat) (x : R),
        h !! a = Some arr -> (i < length arr)%nat ->
        setitem h a i x = Ok (<[a := <[i := x]> arr]> h)
        /\ drive_value h self' s = Some arr
        /\ drive_value (<[a := <[i := x]> arr]> h) self' s
           = Some (<[i := x]> arr))
  /\ (forall n self'' outs,
        run n self' = Ok (self'', outs) ->
        dn_drives self'' = dn_drives self
        /\ Forall (fun o => o.1.1 = s -> o.1.2 = a) outs).
Proof.
  intros E. destruct (step_dn_drives _ _ _ _ E) as [Hdn Ha].
  split; [exact Hdn|]. split; [congruence|]. split.
  - intros h arr i x Harr Hi.
    assert (Hlk : dn_drives self' !! s = Some a) by congruence.
    split; [|split].
    + unfold setitem. rewrite Harr.
      destruct (decide (i < length arr)%nat); [reflexivity|contradiction].
    + unfold drive_value. rewrite Hlk. exact Harr.
    + unfold drive_value. rewrite Hlk. simpl.
      apply list_lookup_insert_eq. exact (lookup_lt_Some _ _ _ Harr).
  - intros n self'' outs E2.
    destruct (run_dn_drives _ _ _ _ E2) as [Hdn2 Hall].
    split; [congruence|].
    eapply Forall_impl; [exact Hall|]. intros [[s2 a2] d2] Ho Hs.
    simpl in *. subst s2. congruence.
Qed.

End ControllerAliasing.

(** The default instance, one call, then [drive[0] = 5] by the caller. *)
Lemma default_controller_first_step :
  REC.step (default_controller []).2
  = Ok (REC.set_curr_time (default_controller []).2 (0 + 0.01),
        (FORWARD, 0%nat)).
Proof.
  rewrite step_settling by (simpl; lra). reflexivity.
Qed.

Lemma C6_counterexample :
  let h := (default_controller []).1 in
  let self := (default_controller []).2 in
  let self' := REC.set_curr_time self (0 + 0.01) in
  let h' := [[5; 1]; [- 0.4; 1.2]; [1.2; - 0.4]] in
  REC.step self = Ok (self', (FORWARD, 0%nat))
  /\ setitem h 0 0 5 = Ok h'
  /\ drive_value h self' FORWARD = Some [1; 1]
  /\ drive_value h' self' FORWARD = Some [5; 1]
  /\ ~ returned_drive_is_copy (G := list R).
Proof.
  intros h self self' h'.
  assert (Hset : setitem h 0 0 5 = Ok h').
  { unfold setitem. simpl.
    destruct (decide (0 < 2)%nat); [reflexivity|lia]. }
  split; [exact default_controller_first_step|]. split; [exact Hset|].
  split; [reflexivity|]. split; [reflexivity|].
  intros Hcopy.
  specialize (Hcopy h h' self self' FORWARD 0%nat 0%nat 5
                default_controller_first_step Hset FORWARD).
  change (Some [5; 1] = Some [1; 1]) in Hcopy.
  injection Hcopy as E. lra.
Qed.

Lemma C6_returned_drive_is_dict_entry_witness :
  let self := (default_controller []).2 in
  let self' := REC.set_curr_time self (0 + 0.01) in
  REC.step self = Ok (self', (FORWARD, 0%nat))
  /\ REC.dn_drives self' !! FORWARD = Some 0%nat.
Proof.
  split; [exact default_controller_first_step|].
  exact (proj1 (proj2 (C6_returned_drive_is_dict_entry _ _ _ _
                         default_controller_first_step))).
Defined.

(** * Properties of [PathIntegrationNMF] *)

Lemma rotate_0 (p : Vec2) : rotate 0 p = p.
Proof.
  destruct p as [x y]. unfold rotate. simpl. rewrite cos_0, sin_0.
  f_equal; ring.
Qed.

Lemma rotate_inverse (theta : R) (p : Vec2) :
  rotate (- theta) (rotate theta p) = p.
Proof.
  destruct p as [x y]. unfold rotate. simpl. rewrite cos_neg, sin_neg.
  pose proof (sin2_cos2 theta) as E. unfold Rsqr in E.
  f_equal.
  - transitivity (x * (sin theta * sin theta + cos theta * cos theta));
      [ring|rewrite E; ring].
  - transitivity (y * (sin theta * sin theta + cos theta * cos theta));
      [ring|rewrite E; ring].
Qed.

Lemma vsub_vadd (p base : Vec2) : vsub (vadd p base) base = p.
Proof. destruct p, base. unfold vsub, vadd. simpl. f_equal; ring. Qed.

Lemma vsub_origin (p : Vec2) : vsub p (0, 0) = p.
Proof. destruct p. unfold vsub. simpl. f_equal; ring. Qed.

(** The product with the transposed matrix is, row by row, the rotation
    by minus the heading angle of the translated point. *)
Lemma absolute_to_relative_pos_rotate (pos : list Vec2) (base_pos heading : Vec2) :
  PathIntegrationNMF.absolute_to_relative_pos pos base_pos heading
  = map (fun p => rotate (- heading_angle heading) (vsub p base_pos)) pos.
Proof.
  unfold PathIntegrationNMF.absolute_to_relative_pos, dot, transpose.
  rewrite map_map. apply map_ext. intros p.
  unfold rotate, heading_angle. simpl. f_equal; ring.
Qed.

Lemma heading_angle_x_axis : heading_angle (1, 0) = 0.
Proof.
  unfold heading_angle, norm. simpl.
  replace (1 * 1 + 0 * 0) with 1 by ring. rewrite sqrt_1.
  unfold arctan2.
  destruct (Rlt_dec 0 (1 / 1)); [|lra].
  replace (0 / 1 / (1 / 1)) with 0 by (field; lra). exact atan_0.
Qed.

Lemma map_id_ext {A : Type} (f : A -> A) (l : list A) :
  (forall x, f x = x) -> map f l = l.
Proof.
  intros Hf. induction l as [|x l IH]; [reflexivity|].
  simpl. rewrite Hf, IH. reflexivity.
Qed.

Lemma absolute_to_relative_pos_identity (pos : list Vec2) :
  PathIntegrationNMF.absolute_to_relative_pos pos (0, 0) (1, 0) = pos.
Proof.
  rewrite absolute_to_relative_pos_rotate, heading_angle_x_axis.
  apply map_id_ext. intros p.
  replace (- 0) with 0 by ring. rewrite rotate_0. apply vsub_origin.
Qed.

Lemma sqrt_slope (x y : R) :
  x <> 0 -> x * x + y * y = 1 -> sqrt (1 + (y / x)²) = Rabs (/ x).
Proof.
  intros Hx Hunit. rewrite <- sqrt_Rsqr_abs. f_equal. unfold Rsqr.
  transitivity ((x * x + y * y) * (/ x * / x)); [field; exact Hx|].
  rewrite Hunit. ring.
Qed.

(** On the unit circle [arctan2] is the angle of its argument. *)
Lemma arctan2_unit (x y : R) :
  x * x + y * y = 1 ->
  cos (arctan2 y x) = x /\ sin (arctan2 y x) = y.
Proof.
  intros Hunit. unfold arctan2.
  destruct (Rlt_dec 0 x) as [Hpos|Hnpos].
  - rewrite cos_atan, sin_atan, sqrt_slope by (auto; lra).
    rewrite Rabs_pos_eq by (left; apply Rinv_0_lt_compat; exact Hpos).
    split; field; lra.
  - destruct (Rlt_dec x 0) as [Hneg|Hnneg].
    + assert (Hinv : / x < 0) by (apply Rinv_lt_0_compat; exact Hneg).
      assert (Habs : Rabs (/ x) = - / x) by (apply Rabs_left; exact Hinv).
      destruct (Rle_dec 0 y).
      * rewrite neg_cos, neg_sin, cos_atan, sin_atan, sqrt_slope, Habs
          by (auto; lra).
        split; field; lra.
      * unfold Rminus. rewrite cos_plus, sin_plus, cos_neg, sin_neg.
        rewrite cos_PI, sin_PI, cos_atan, sin_atan, sqrt_slope, Habs
          by (auto; lra).
        split; field; lra.
    + assert (Hx : x = 0) by lra. subst x.
      assert (Hy : y * y = 1) by lra.
      destruct (Rlt_dec 0 y) as [Hy0|Hy0].
      * rewrite cos_PI2, sin_PI2. split; [reflexivity|nra].
      * destruct (Rlt_dec y 0); [|nra].
        rewrite cos_neg, sin_neg, cos_PI2, sin_PI2. split; [reflexivity|nra].
Qed.

Lemma norm_pos (heading : Vec2) : heading <> (0, 0) -> 0 < norm heading.
Proof.
  destruct heading as [x y]. intros Hne. unfold norm. simpl.
  apply sqrt_lt_R0.
  destruct (Req_dec_T x 0) as [->|Hx]; [|nra].
  destruct (Req_dec_T y 0) as [->|Hy]; [contradiction Hne; reflexivity|nra].
Qed.

Lemma norm_sqr (heading : Vec2) :
  norm heading * norm heading = heading.1 * heading.1 + heading.2 * heading.2.
Proof. unfold norm. apply sqrt_sqrt. nra. Qed.

(** The angle of a non-zero heading is the angle of its direction. *)
Lemma heading_angle_cos_sin (heading : Vec2) :
  heading <> (0, 0) ->
  cos (heading_angle heading) = heading.1 / norm heading
  /\ sin (heading_angle heading) = heading.2 / norm heading.
Proof.
  intros Hne. pose proof (norm_pos _ Hne) as Hn.
  pose proof (norm_sqr heading) as Hsq.
  apply arctan2_unit.
  transitivity ((heading.1 * heading.1 + heading.2 * heading.2)
                / (norm heading * norm heading)); [field; lra|].
  rewrite <- Hsq. field. lra.
Qed.

(** C8.  With base (0, 0) and heading (1, 0) the transform returns its
    input.  For a non-zero heading, [theta] is the angle of its
    direction; points rotated by [theta] and moved to the base come back
    as they were, exactly; the output has one row per input row, in the
    same order, row [i] being the translated input row [i] rotated by
    [- theta]. *)
Theorem C8_absolute_to_relative_pos (pos : list Vec2) (base_pos heading : Vec2) :
  heading <> (0, 0) ->
  let theta := heading_angle heading in
  PathIntegrationNMF.absolute_to_relative_pos pos (0, 0) (1, 0) = pos
  /\ (cos theta = heading.1 / norm heading
      /\ sin theta = heading.2 / norm heading)
  /\ PathIntegrationNMF.absolute_to_relative_pos
       (map (fun p => vadd (rotate theta p) base_pos) pos) base_pos heading
     = pos
  /\ length (PathIntegrationNMF.absolute_to_relative_pos pos base_pos heading)
     = length pos
  /\ forall i : nat,
      PathIntegrationNMF.absolute_to_relative_pos pos base_pos heading !! i
      = (fun p => rotate (- theta) (vsub p base_pos)) <$> pos !! i.
Proof.
  intros Hne theta. split; [|split; [|split; [|split]]].
  - apply absolute_to_relative_pos_identity.
  - exact (heading_angle_cos_sin _ Hne).
  - rewrite absolute_to_relative_pos_rotate, map_map.
    apply map_id_ext. intros p. rewrite vsub_vadd. apply rotate_inverse.
  - rewrite absolute_to_relative_pos_rotate. apply length_map.
  - intros i. rewrite absolute_to_relative_pos_rotate. fold theta.
    revert i. induction pos as [|p pos IH]; intros [|i]; try reflexivity.
    apply IH.
Qed.

Lemma C8_absolute_to_relative_pos_witness :
  ((3, 4) : Vec2) <> (0, 0)
  /\ PathIntegrationNMF.absolute_to_relative_pos [(1, 2); (- 3, 0.5)] (0, 0) (1, 0)
     = [(1, 2); (- 3, 0.5)].
Proof.
  assert (Hne : ((3, 4) : Vec2) <> (0, 0)).
  { intros E. injection E as E1 E2. lra. }
  split; [exact Hne|].
  exact (proj1 (C8_absolute_to_relative_pos [(1, 2); (- 3, 0.5)] (7, 8) (3, 4)
                  Hne)).
Defined.

Section StrideDifference.
Context {Base Action Info Extra Hist : Type}.
Context (super_step :
           Base -> Action -> Base * (list Vec3 * (Vec3 * list Vec3) * Vec3 * Extra)
                                * R * bool * bool * Info).
Context (update_cam_pos : Base -> Vec2 -> Base).
Import PathIntegrationNMF.

Lemma np_sub_same_length (a b : list Vec2) :
  length a = length b -> np_sub a b = Ok (zip_with vsub a b).
Proof.
  intros Hlen. unfold np_sub.
  destruct (decide (length a = length b)); [reflexivity|contradiction].
Qed.

Lemma zeros_like_repeat (a : list Vec2) :
  zeros_like a = repeat (0, 0) (length a).
Proof.
  induction a as [|p a IH]; [reflexivity|]. simpl. f_equal. exact IH.
Qed.

Lemma zip_with_vsub_lookup (a b : list Vec2) (i : nat) (p q : Vec2) :
  a !! i = Some p -> b !! i = Some q ->
  zip_with vsub a b !! i = Some (p.1 - q.1, p.2 - q.2).
Proof.
  intros Ha Hb. rewrite lookup_zip_with, Ha, Hb. reflexivity.
Qed.

(** C4.  Let the wrapped [step] return the end effectors [ee], the fly
    matrix [fl] and the orientation [ori], and let [ee_pos_rel] be the
    end effectors in the fly's frame.  A fresh wrapper has no history.
    Without history the call attaches a matrix of zeros of the shape of
    [ee_pos_rel], whatever the wrapped [step] returned.  With a history
    [last] it attaches numpy's [ee_pos_rel - last], which for a history
    of as many rows is the difference row by row and coordinate by
    coordinate.  In both cases the history after the call is
    [ee_pos_rel]. *)
Theorem C4_stride_diff (self : t (Base := Base) (Hist := Hist))
    (action : Action) b ee fl ori extra reward terminated truncated info :
  super_step (base self) action
  = (b, (ee, fl, ori, extra), reward, terminated, truncated, info) ->
  let ee_pos_rel := absolute_to_relative_pos (map xy ee) (xy fl.1) (xy ori) in
  let after :=
    Build (update_cam_pos b (xy fl.1)) (Some ee_pos_rel)
      (total_stride_lengths_hist self) (heading_estimate_hist self)
      (pos_estimate_hist self) in
  (forall b0 : Base,
      _last_end_effector_pos (__init__ (Hist := Hist) b0) = None)
  /\ length ee_pos_rel = length ee
  /\ (_last_end_effector_pos self = None ->
      step super_step update_cam_pos self action
      = Ok (after,
            (BuildObs ee fl ori (zeros_like ee_pos_rel) extra,
             reward, terminated, truncated, info))
      /\ zeros_like ee_pos_rel = repeat (0, 0) (length ee_pos_rel))
  /\ (forall last,
        _last_end_effector_pos self = Some last ->
        step super_step update_cam_pos self action
        = (ee_diff ← np_sub ee_pos_rel last;
           Ok (after,
               (BuildObs ee fl ori ee_diff extra,
                reward, terminated, truncated, info))))
  /\ (forall last,
        _last_end_effector_pos self = Some last ->
        length last = length ee_pos_rel ->
        step super_step update_cam_pos self action
        = Ok (after,
              (BuildObs ee fl ori (zip_with vsub ee_pos_rel last) extra,
               reward, terminated, truncated, info))
        /\ length (zip_with vsub ee_pos_rel last) = length ee_pos_rel
        /\ forall i p q,
            ee_pos_rel !! i = Some p -> last !! i = Some q ->
            zip_with vsub ee_pos_rel last !! i
            = Some (p.1 - q.1, p.2 - q.2))
  /\ (forall self' out,
        step super_step update_cam_pos self action = Ok (self', out) ->
        _last_end_effector_pos self' = Some ee_pos_rel).
Proof.
  intros E ee_pos_rel after.
  split; [reflexivity|]. split.
  { unfold ee_pos_rel. rewrite absolute_to_relative_pos_rotate, !length_map.
    reflexivity. }
  split; [|split; [|split]].
  - intros Hnone. split; [|apply zeros_like_repeat].
    unfold step. rewrite E, Hnone. reflexivity.
  - intros last Hlast. unfold step. rewrite E, Hlast. reflexivity.
  - intros last Hlast Hlen. split; [|split].
    + unfold step. rewrite E, Hlast. fold ee_pos_rel.
      rewrite np_sub_same_length by (symmetry; exact Hlen). reflexivity.
    + rewrite length_zip_with. lia.
    + intros i p q. apply zip_with_vsub_lookup.
  - intros self' out. unfold step. rewrite E. fold ee_pos_rel.
    destruct (match _last_end_effector_pos self with
              | Some last => np_sub ee_pos_rel last
              | None => Ok (zeros_like ee_pos_rel)
              end) as [diff|]; [|discriminate].
    simpl. intros [= <- _]. reflexivity.
Qed.

End StrideDifference.

Lemma C4_stride_diff_witness :
  let self := PathIntegrationNMF.__init__ (Hist := unit) 0 in
  let ee := [(0, 2, 3); (4, 0, 6)] in
  let ee_pos_rel :=
    PathIntegrationNMF.absolute_to_relative_pos (map xy ee) (0, 0) (1, 0) in
  counting_step (PathIntegrationNMF.base self) tt
  = (0 + 1, (ee, ((0, 0, 0.5), []), (1, 0, 0), tt), 0, false, false, tt)
  /\ PathIntegrationNMF.step counting_step (fun b _ => b) self tt
     = Ok (PathIntegrationNMF.Build (0 + 1) (Some ee_pos_rel) [] [] [],
           (PathIntegrationNMF.BuildObs ee ((0, 0, 0.5), []) (1, 0, 0)
              (zeros_like ee_pos_rel) tt,
            0, false, false, tt)).
Proof.
  intros self ee ee_pos_rel.
  assert (E : counting_step (PathIntegrationNMF.base self) tt
              = (0 + 1, (ee, ((0, 0, 0.5), []), (1, 0, 0), tt),
                 0, false, false, tt)) by reflexivity.
  split; [exact E|].
  exact (proj1 (proj1 (proj2 (proj2
           (C4_stride_diff counting_step (fun b _ => b) self tt
              _ _ _ _ _ _ _ _ _ E))) eq_refl)).
Defined.

(** Two calls in a row: zeros first, then the displacement of each end
    effector. *)
Example counting_step_twice :
  let self0 := PathIntegrationNMF.__init__ (Hist := unit) 0 in
  let self1 :=
    PathIntegrationNMF.Build (Hist := unit) (0 + 1)
      (Some [(0, 2); (4, 0)]) [] [] [] in
  let self2 :=
    PathIntegrationNMF.Build (Hist := unit) (0 + 1 + 1)
      (Some [(0 + 1, 2); (4, 0 + 1)]) [] [] [] in
  PathIntegrationNMF.step counting_step (fun b _ => b) self0 tt
  = Ok (self1,
        (PathIntegrationNMF.BuildObs [(0, 2, 3); (4, 0, 6)]
           ((0, 0, 0.5), []) (1, 0, 0) [(0, 0); (0, 0)] tt,
         0, false, false, tt))
  /\ PathIntegrationNMF.step counting_step (fun b _ => b) self1 tt
     = Ok (self2,
           (PathIntegrationNMF.BuildObs [(0 + 1, 2, 3); (4, 0 + 1, 6)]
              ((0, 0, 0.5), []) (1, 0, 0)
              [(0 + 1 - 0, 2 - 2); (4 - 4, 0 + 1 - 0)] tt,
            0, false, false, tt))
  /\ [(0 + 1 - 0, 2 - 2); (4 - 4, 0 + 1 - 0)] = [(1, 0); (0, 1)].
Proof.
  intros self0 self1 self2. split; [|split].
  - unfold PathIntegrationNMF.step, counting_step, self0, self1.
    cbn [PathIntegrationNMF.base PathIntegrationNMF.__init__ map xy fst snd
         PathIntegrationNMF._last_end_effector_pos].
    rewrite absolute_to_relative_pos_identity. reflexivity.
  - unfold PathIntegrationNMF.step, counting_step, self1, self2.
    cbn [PathIntegrationNMF.base map xy fst snd
         PathIntegrationNMF._last_end_effector_pos].
    rewrite absolute_to_relative_pos_identity. reflexivity.
  - repeat f_equal; ring.
Qed.

(** * Properties of [MovingFlyArena] *)

Section ArenaOptions.
Context {G : Type} `{RandomSource G}.
Import MovingFlyArena.

Lemma valid_move_direction_dec (move_direction : string) :
  valid_move_direction move_direction \/ ~ valid_move_direction move_direction.
Proof.
  unfold valid_move_direction.
  destruct (String.eqb_spec move_direction "left"); [tauto|].
  destruct (String.eqb_spec move_direction "right"); [tauto|].
  destruct (String.eqb_spec move_direction "random"); tauto.
Qed.

Lemma choose_y_mult_invalid (np_random : G) (move_direction : string) :
  ~ valid_move_direction move_direction ->
  choose_y_mult np_random move_direction
  = (Raise (ValueError "Invalid move_direction"), np_random).
Proof.
  intros Hn. unfold choose_y_mult.
  destruct (String.eqb_spec move_direction "left") as [E|_];
    [contradiction Hn; left; exact E|].
  destruct (String.eqb_spec move_direction "right") as [E|_];
    [contradiction Hn; right; left; exact E|].
  destruct (String.eqb_spec move_direction "random") as [E|_];
    [contradiction Hn; right; right; exact E|].
  reflexivity.
Qed.

Lemma choose_y_mult_valid (np_random : G) (move_direction : string) :
  valid_move_direction move_direction ->
  exists y g,
    choose_y_mult np_random move_direction = (Ok y, g)
    /\ (move_direction = "left" -> y = 1%Z)
    /\ (move_direction = "right" -> y = (-1)%Z)
    /\ (y = 1%Z \/ y = (-1)%Z).
Proof.
  intros [-> | [-> | ->]]; unfold choose_y_mult; simpl.
  - exists 1%Z, np_random. repeat split; auto. discriminate.
  - exists (-1)%Z, np_random. repeat split; auto. discriminate.
  - pose proof (rs_choice_In Z (-1)%Z [1%Z] np_random) as Hin.
    destruct (rs_choice (-1)%Z [1%Z] np_random) as [c g]. simpl in Hin.
    exists c, g. split; [reflexivity|].
    split; [discriminate|]. split; [discriminate|]. intuition.
Qed.

Lemma add_blocks_no_ValueError x_range y_range block_size height_range
    rand_seed ground_alpha friction :
  ~ raises_ValueError
      (add_blocks (G := G) x_range y_range block_size height_range rand_seed
         ground_alpha friction).
Proof.
  intros [msg E]. unfold add_blocks, arange in E.
  destruct (Req_dec_T block_size 0); [discriminate|]. simpl in E.
  destruct (foldl _ _ _) in E. discriminate.
Qed.

Lemma add_ground_invalid (terrain : string) x_range y_range block_size
    height_range rand_seed ground_alpha friction :
  ~ valid_terrain terrain ->
  add_ground (G := G) terrain x_range y_range block_size height_range
    rand_seed ground_alpha friction
  = Raise (ValueError ("Invalid terrain '" ++ terrain ++ "'")).
Proof.
  intros Hn. unfold add_ground.
  destruct (String.eqb_spec terrain "flat") as [E|_];
    [contradiction Hn; left; exact E|].
  destruct (String.eqb_spec terrain "blocks") as [E|_];
    [contradiction Hn; right; exact E|].
  reflexivity.
Qed.

Lemma add_ground_valid (terrain : string) x_range y_range block_size
    height_range rand_seed ground_alpha friction :
  valid_terrain terrain ->
  ~ raises_ValueError
      (add_ground (G := G) terrain x_range y_range block_size height_range
         rand_seed ground_alpha friction).
Proof.
  intros [-> | ->] [msg E]; unfold add_ground in E; simpl in E;
    [discriminate|].
  pose proof (add_blocks_no_ValueError x_range y_range block_size
                height_range rand_seed ground_alpha friction) as Hb.
  destruct (add_blocks _ _ _ _ _ _ _) as [body|e]; [discriminate|].
  apply Hb. exists msg. simpl in E. injection E as ->. reflexivity.
Qed.

(** C9.  [__init__] raises [ValueError "Invalid move_direction"] for a
    [move_direction] other than "left", "right" and "random"; for one of
    these and a [terrain] other than "flat" and "blocks" it raises
    [ValueError "Invalid terrain '...'"]; for valid options it raises no
    [ValueError], and the arena it returns holds the options as given,
    with [y_mult] 1 for "left", -1 for "right", one of the two for
    "random". *)
Theorem C9_invalid_options_raise (np_random : G) (terrain : string)
    (x_range y_range : Vec2) (block_size : R) (height_range : Vec2)
    (rand_seed : Z) (ground_alpha : R) (friction : Vec3) (obj_radius : R)
    (init_fly_pos : Vec2) (move_speed : R) (move_direction : string)
    (lateral_magnitude : R) :
  let r :=
    (__init__ np_random terrain x_range y_range block_size height_range
       rand_seed ground_alpha friction obj_radius init_fly_pos move_speed
       move_direction lateral_magnitude).1 in
  (~ valid_move_direction move_direction ->
   r = Raise (ValueError "Invalid move_direction"))
  /\ (valid_move_direction move_direction -> ~ valid_terrain terrain ->
      r = Raise (ValueError ("Invalid terrain '" ++ terrain ++ "'")))
  /\ (valid_move_direction move_direction -> valid_terrain terrain ->
      ~ raises_ValueError r)
  /\ (raises_ValueError r <->
      ~ (valid_move_direction move_direction /\ valid_terrain terrain))
  /\ (forall arena, r = Ok arena ->
      MovingFlyArena.terrain arena = terrain
      /\ MovingFlyArena.move_direction arena = move_direction
      /\ (move_direction = "left" -> y_mult arena = 1%Z)
      /\ (move_direction = "right" -> y_mult arena = (-1)%Z)
      /\ (y_mult arena = 1%Z \/ y_mult arena = (-1)%Z)).
Proof.
  intros r.
  assert (Hmd : ~ valid_move_direction move_direction ->
                r = Raise (ValueError "Invalid move_direction")).
  { intros Hn. unfold r, __init__.
    rewrite (choose_y_mult_invalid _ _ Hn). reflexivity. }
  split; [exact Hmd|].
  assert (Hvalid : valid_move_direction move_direction ->
            exists y,
              ((move_direction = "left" -> y = 1%Z)
               /\ (move_direction = "right" -> y = (-1)%Z)
               /\ (y = 1%Z \/ y = (-1)%Z))
              /\ r = ('(blocks_attrs, asset, body) ←
                        add_ground terrain x_range y_range block_size
                          height_range rand_seed ground_alpha friction;
                      Ok (Build terrain
                            (init_fly_pos.1, init_fly_pos.2, obj_radius)
                            (init_fly_pos.1, init_fly_pos.2, obj_radius)
                            friction move_speed 0 move_direction
                            lateral_magnitude y blocks_attrs asset
                            (body ++
                               [Site (init_fly_pos.1, init_fly_pos.2, obj_radius)
                                  (0, 0, 0);
                                AttachedFly "Animat_2"; Freejoint;
                                Camera "birdeye_cam" "fixed" (15, 0, 35)
                                  (0, 0, 0) 45;
                                Camera "birdeye_cam_zoom" "fixed" (15, 0, 20)
                                  (0, 0, 0) 45])
                            init_fly_pos))).
  { intros Hv.
    destruct (choose_y_mult_valid np_random _ Hv) as (y & g & E & Hy).
    exists y. split; [exact Hy|]. unfold r, __init__. rewrite E. reflexivity. }
  assert (Hter : valid_move_direction move_direction ->
                 ~ valid_terrain terrain ->
                 r = Raise (ValueError ("Invalid terrain '" ++ terrain ++ "'"))).
  { intros Hv Hn. destruct (Hvalid Hv) as (y & _ & ->).
    rewrite (add_ground_invalid _ _ _ _ _ _ _ _ Hn). reflexivity. }
  assert (Hok : valid_move_direction move_direction -> valid_terrain terrain ->
                ~ raises_ValueError r).
  { intros Hv Ht [msg E]. destruct (Hvalid Hv) as (y & _ & Er).
    rewrite Er in E.
    pose proof (add_ground_valid terrain x_range y_range block_size
                  height_range rand_seed ground_alpha friction Ht) as Hg.
    destruct (add_ground _ _ _ _ _ _ _ _) as [[[attrs asset] body]|e];
      [discriminate|].
    apply Hg. exists msg. simpl in E. injection E as ->. reflexivity. }
  split; [exact Hter|]. split; [exact Hok|]. split.
  - split.
    + intros Hr [Hv Ht]. exact (Hok Hv Ht Hr).
    + intros Hn.
      destruct (valid_move_direction_dec move_direction) as [Hv|Hnv];
        [|eexists; exact (Hmd Hnv)].
      eexists. apply (Hter Hv). intros Ht. exact (Hn (conj Hv Ht)).
  - intros arena Er.
    destruct (valid_move_direction_dec move_direction) as [Hv|Hn];
      [|rewrite (Hmd Hn) in Er; discriminate].
    destruct (Hvalid Hv) as (y & Hy & Er'). rewrite Er' in Er.
    destruct (add_ground _ _ _ _ _ _ _ _) as [[[attrs asset] body]|e];
      [|discriminate].
    simpl in Er. injection Er as <-. simpl. tauto.
Qed.

End ArenaOptions.

Example default_arena_up :
  (default_arena "flat" "up").1
  = Raise (ValueError "Invalid move_direction").
Proof. reflexivity. Qed.

Example default_arena_hills :
  (default_arena "hills" "right").1
  = Raise (ValueError "Invalid terrain 'hills'").
Proof. reflexivity. Qed.

(** The direction is tested first, and a random direction is drawn
    before the terrain is tested. *)
Example default_arena_up_hills :
  default_arena "hills" "up"
  = (Raise (ValueError "Invalid move_direction"), [0.7])
  /\ default_arena "hills" "random"
     = (Raise (ValueError "Invalid terrain 'hills'"), []).
Proof. split; reflexivity. Qed.

Example default_arena_flat_right :
  exists arena,
    (default_arena "flat" "right").1 = Ok arena
    /\ MovingFlyArena.y_mult arena = (-1)%Z
    /\ length (MovingFlyArena.worldbody arena) = 6%nat.
Proof. eexists. split; [reflexivity|]. split; reflexivity. Qed.

(** * Further properties of [RandomExplorationController] *)

Section ControllerClock.
Context {G : Type} `{RandomSource G}.
Import RandomExplorationController.

(** What the turn-to-forward block never touches. *)
Lemma turn_to_forward_frame (self self' : t G) :
  turn_to_forward self = Ok self' ->
  random_state self' = random_state self
  /\ curr_time self' = curr_time self
  /\ dt self' = dt self
  /\ init_time self' = init_time self
  /\ dn_drives self' = dn_drives self
  /\ lambda_turn self' = lambda_turn self
  /\ turn_duration_mean self' = turn_duration_mean self
  /\ turn_duration_std self' = turn_duration_std self
  /\ _curr_turn_duration self' = _curr_turn_duration self.
Proof.
  unfold turn_to_forward.
  destruct (decide (curr_state self ∈ [TURN_LEFT; TURN_RIGHT]));
    [|intros [= <-]; repeat split].
  destruct (curr_state_start_time self) as [start|]; [|discriminate]. simpl.
  destruct (_curr_turn_duration self) as [x|] eqn:Ed; [|discriminate].
  destruct (Rgt_dec (curr_time self - start) x); intros [= <-];
    simpl; rewrite ?Ed; repeat split.
Qed.

(** A call adds [dt] to the clock and keeps the configuration. *)
Lemma step_frame (self self' : t G) out :
  step self = Ok (self', out) ->
  curr_time self' = curr_time self + dt self
  /\ dt self' = dt self
  /\ init_time self' = init_time self
  /\ lambda_turn self' = lambda_turn self
  /\ turn_duration_mean self' = turn_duration_mean self
  /\ turn_duration_std self' = turn_duration_std self.
Proof.
  unfold step.
  destruct (Rlt_dec (curr_time self) (init_time self)).
  - destruct (getitem _ _); [|discriminate]. simpl. intros [= <- _].
    simpl. repeat split.
  - destruct (turn_to_forward (forward_to_turn self)) as [post|] eqn:Ep;
      [|discriminate].
    simpl. destruct (getitem _ _); [|discriminate]. simpl. intros [= <- _].
    destruct (turn_to_forward_frame _ _ Ep)
      as (_ & Ht & Hdt & Hit & _ & Hl & Hm & Hs & _).
    destruct (forward_to_turn_frame self)
      as (Ht' & Hdt' & Hit' & _ & Hl' & Hm' & Hs').
    simpl. repeat split; congruence.
Qed.

Lemma run_frame (n : nat) : forall (self self' : t G) outs,
  run n self = Ok (self', outs) ->
  curr_time self' = curr_time self + INR n * dt self
  /\ length outs = n
  /\ dt self' = dt self
  /\ init_time self' = init_time self
  /\ lambda_turn self' = lambda_turn self
  /\ turn_duration_mean self' = turn_duration_mean self
  /\ turn_duration_std self' = turn_duration_std self.
Proof.
  induction n as [|n IH]; intros self self' outs.
  - simpl. intros [= <- <-]. simpl. repeat split. ring.
  - change (run (S n) self) with
      ('(self, out) ← step self;
       '(last, outs) ← run n self;
       Ok (last, (out.1, out.2, _curr_turn_duration self) :: outs)).
    rewrite S_INR.
    destruct (step self) as [[self1 out]|] eqn:E1; [|discriminate]. simpl.
    destruct (run n self1) as [[last outs1]|] eqn:E2; [|discriminate]. simpl.
    intros [= <- <-].
    destruct (step_frame _ _ _ E1) as (Ht & Hdt & Hit & Hl & Hm & Hs).
    destruct (IH _ _ _ E2) as (Ht' & Hlen & Hdt' & Hit' & Hl' & Hm' & Hs').
    simpl. repeat split; try congruence.
    rewrite Ht', Hdt, Ht. ring.
Qed.

(** Ticks added one after another, as [+=] does. *)
Lemma foldl_Rplus_repeat (d : R) (n : nat) : forall a : R,
  foldl Rplus a (repeat d n) = a + INR n * d.
Proof.
  induction n as [|n IH]; intros a.
  - simpl. ring.
  - rewrite S_INR. cbn [repeat foldl]. rewrite IH. ring.
Qed.

(** X1.  On a fresh instance built with a standard deviation that is
    not negative and a seed [RandomState] accepts, any number [n] of
    calls succeed and return [n] results.  Every call, settling or not,
    turning or not, adds [dt] to the clock once: after the [n] calls the
    clock is the sum accumulated from 0 tick by tick, in the order of
    the calls.  The tick, the settling time and the turning parameters
    are still those given to [__init__]. *)
Theorem X1_clock (h : heap) (dt0 : R) (fwd left right : R * R)
    (mean std lam : R) (seed : Z) (it : R) (n : nat) :
  0 <= std ->
  (0 <= seed < 2 ^ 32)%Z ->
  let self := (__init__ (G := G) h dt0 fwd left right mean std lam seed it).2 in
  exists self' outs,
    run n self = Ok (self', outs)
    /\ length outs = n
    /\ curr_time self' = foldl Rplus 0 (repeat dt0 n)
    /\ dt self' = dt0
    /\ init_time self' = it
    /\ lambda_turn self' = lam
    /\ turn_duration_mean self' = mean
    /\ turn_duration_std self' = std.
Proof.
  intros _ _ self.
  destruct (run_inv n self (init_inv _ _ _ _ _ _ _ _ _ _))
    as (self' & outs & E & _).
  exists self', outs. split; [exact E|].
  destruct (run_frame _ _ _ _ E) as (Ht & Hlen & Hdt & Hit & Hl & Hm & Hs).
  split; [exact Hlen|].
  split; [rewrite Ht, foldl_Rplus_repeat; reflexivity|].
  repeat split; assumption.
Qed.

End ControllerClock.

Lemma X1_clock_witness :
  let self :=
    (REC.__init__ (G := list R) [] 0.01 (1, 1) (- 0.4, 1.2) (1.2, - 0.4)
       0.4 0.1 1 0%Z 0.1).2 in
  0 <= 0.1
  /\ (0 <= 0 < 2 ^ 32)%Z
  /\ exists self' outs,
      run 3 self = Ok (self', outs)
      /\ length outs = 3%nat
      /\ REC.curr_time self' = foldl Rplus 0 (repeat 0.01 3).
Proof.
  intros self.
  assert (Hstd : 0 <= 0.1) by lra.
  assert (Hseed : (0 <= 0 < 2 ^ 32)%Z) by lia.
  split; [exact Hstd|]. split; [exact Hseed|].
  destruct (X1_clock [] 0.01 (1, 1) (- 0.4, 1.2) (1.2, - 0.4)
              0.4 0.1 1 0%Z 0.1 3 Hstd Hseed)
    as (self' & outs & E & Hlen & Ht & _).
  exists self', outs. split; [exact E|]. split; [exact Hlen|exact Ht].
Defined.

Section ControllerTurning.
Context {G : Type} `{RandomSource G}.
Import RandomExplorationController.

(** A call in a turning state past the settling phase: the
    forward-to-turn block is skipped, so nothing is drawn. *)
Lemma step_turning (self : t G) (start d : R) :
  curr_time self >= init_time self ->
  curr_state self ∈ [TURN_LEFT; TURN_RIGHT] ->
  curr_state_start_time self = Some start ->
  _curr_turn_duration self = Some d ->
  step self =
    (let self :=
       if Rgt_dec (curr_time self - start) d
       then set_curr_state_start_time (set_curr_state self FORWARD)
              (curr_time self)
       else self in
     let self := set_curr_time self (curr_time self + dt self) in
     drive ← getitem (dn_drives self) (curr_state self);
     Ok (self, (curr_state self, drive))).
Proof.
  intros Hge Hin Hstart Hdur. apply Rge_not_lt in Hge.
  rewrite (step_settled _ Hge).
  rewrite (forward_to_turn_not_forward _ (turn_not_forward _ Hin)).
  rewrite (turn_to_forward_turning _ _ _ Hin Hstart Hdur). reflexivity.
Qed.

Lemma run_turning_hold (n : nat) : forall (self : t G) (a : loc) (start d : R),
  dt self >= 0 ->
  curr_time self >= init_time self ->
  curr_state self ∈ [TURN_LEFT; TURN_RIGHT] ->
  curr_state_start_time self = Some start ->
  _curr_turn_duration self = Some d ->
  dn_drives self !! curr_state self = Some a ->
  (forall i, (i < n)%nat -> curr_time self + INR i * dt self - start <= d) ->
  run n self
  = Ok (set_curr_time self (curr_time self + INR n * dt self),
        repeat (curr_state self, a, Some d) n).
Proof.
  induction n as [|n IH]; intros self a start d Hdt Hge Hin Hstart Hdur Ha Hle.
  - simpl. replace (curr_time self + 0 * dt self) with (curr_time self) by ring.
    destruct self; reflexivity.
  - change (run (S n) self) with
      ('(self, out) ← step self;
       '(last, outs) ← run n self;
       Ok (last, (out.1, out.2, _curr_turn_duration self) :: outs)).
    rewrite S_INR.
    rewrite (step_turning _ _ _ Hge Hin Hstart Hdur).
    destruct (Rgt_dec (curr_time self - start) d) as [Hgt|_].
    { specialize (Hle 0%nat ltac:(lia)). simpl in Hle. lra. }
    simpl. rewrite (getitem_Some _ _ _ Ha). simpl.
    rewrite IH with (a := a) (start := start) (d := d); simpl; auto.
    + rewrite Hdur. do 3 f_equal. ring.
    + lra.
    + intros i Hi. specialize (Hle (S i) ltac:(lia)).
      rewrite S_INR in Hle. lra.
Qed.

(** X3.  A turn lasts until the time elapsed since its start exceeds
    its duration.  Past the settling phase, with a tick that is not
    negative, in a turning state: while the elapsed time before each of
    [n] calls is at most the duration, these calls return the turning
    state with its drive and change the clock only -- nothing is drawn.
    If the elapsed time before the next call exceeds the duration, that
    call returns [FORWARD], restarts the start time and draws nothing
    either. *)
Theorem X3_turn_lasts (self : t G) (a a_forward : loc) (start d : R)
    (n : nat) :
  dt self >= 0 ->
  curr_time self >= init_time self ->
  curr_state self ∈ [TURN_LEFT; TURN_RIGHT] ->
  curr_state_start_time self = Some start ->
  _curr_turn_duration self = Some d ->
  dn_drives self !! curr_state self = Some a ->
  dn_drives self !! FORWARD = Some a_forward ->
  (forall i, (i < n)%nat -> curr_time self + INR i * dt self - start <= d) ->
  let now := curr_time self + INR n * dt self in
  let held := set_curr_time self now in
  run n self = Ok (held, repeat (curr_state self, a, Some d) n)
  /\ random_state held = random_state self
  /\ (now - start > d ->
      step held
      = Ok (set_curr_time
              (set_curr_state_start_time (set_curr_state held FORWARD) now)
              (now + dt self),
            (FORWARD, a_forward))).
Proof.
  intros Hdt Hge Hin Hstart Hdur Ha Haf Hle now held.
  split; [exact (run_turning_hold n self a start d Hdt Hge Hin Hstart Hdur
                   Ha Hle)|].
  split; [reflexivity|].
  intros Hgt.
  assert (Hge' : curr_time held >= init_time held).
  { simpl. unfold now. pose proof (pos_INR n). nra. }
  rewrite (step_turning held start d Hge' Hin Hstart Hdur).
  change (curr_time held) with now.
  destruct (Rgt_dec (now - start) d); [|contradiction].
  simpl. rewrite (getitem_Some _ _ _ Haf). reflexivity.
Qed.

(** X4.  [STOP] has no drive.  Past the settling phase, an instance
    whose state is [STOP] makes no transition and its call raises
    [KeyError] on the lookup of the drive. *)
Theorem X4_stop_raises (self : t G) :
  curr_time self >= init_time self ->
  curr_state self = STOP ->
  dn_drives self !! STOP = None ->
  step self = Raise (KeyError "WalkingState.STOP").
Proof.
  intros Hge Hs Hd. apply Rge_not_lt in Hge.
  rewrite (step_settled _ Hge).
  rewrite forward_to_turn_not_forward by (rewrite Hs; discriminate).
  unfold turn_to_forward.
  destruct (decide (curr_state self ∈ [TURN_LEFT; TURN_RIGHT])) as [Hin|_].
  { apply turn_not_stop in Hin. contradiction. }
  simpl. rewrite Hs. unfold getitem. rewrite Hd. reflexivity.
Qed.

(** X5.  Past the settling phase, in a turning state that no
    forward-to-turn transition has prepared: without a start time the
    call raises [AttributeError]; with a start time and the duration
    still [None] it raises [TypeError]. *)
Theorem X5_unprepared_turn_raises (self : t G) :
  curr_time self >= init_time self ->
  curr_state self ∈ [TURN_LEFT; TURN_RIGHT] ->
  (curr_state_start_time self = None ->
   step self = Raise (AttributeError "curr_state_start_time"))
  /\ (forall start,
        curr_state_start_time self = Some start ->
        _curr_turn_duration self = None ->
        step self
        = Raise (TypeError "'>' not supported between 'float' and 'NoneType'")).
Proof.
  intros Hge Hin. apply Rge_not_lt in Hge.
  rewrite (step_settled _ Hge).
  rewrite (forward_to_turn_not_forward _ (turn_not_forward _ Hin)).
  unfold turn_to_forward.
  destruct (decide (curr_state self ∈ [TURN_LEFT; TURN_RIGHT]));
    [|contradiction].
  split.
  - intros ->. reflexivity.
  - intros start -> ->. reflexivity.
Qed.

End ControllerTurning.

Lemma X3_turn_lasts_witness :
  REC.dt holding_controller >= 0
  /\ REC.curr_time holding_controller >= REC.init_time holding_controller
  /\ (forall i, (i < 3)%nat -> 0.1 + INR i * 0.01 - 0.1 <= 0.025)
  /\ run 3 holding_controller
     = Ok (REC.set_curr_time holding_controller (0.1 + INR 3 * 0.01),
           repeat (TURN_LEFT, 1%nat, Some 0.025) 3)
  /\ REC.step (REC.set_curr_time holding_controller (0.1 + INR 3 * 0.01))
     = Ok (REC.set_curr_time
             (REC.set_curr_state_start_time
                (REC.set_curr_state
                   (REC.set_curr_time holding_controller (0.1 + INR 3 * 0.01))
                   FORWARD)
                (0.1 + INR 3 * 0.01))
             (0.1 + INR 3 * 0.01 + 0.01),
           (FORWARD, 0%nat)).
Proof.
  assert (Hdt : REC.dt holding_controller >= 0) by (simpl; lra).
  assert (Hge : REC.curr_time holding_controller
                >= REC.init_time holding_controller) by (simpl; lra).
  assert (Hin : REC.curr_state holding_controller ∈ [TURN_LEFT; TURN_RIGHT])
    by (apply list_elem_of_In; now left).
  assert (Hle : forall i, (i < 3)%nat -> 0.1 + INR i * 0.01 - 0.1 <= 0.025).
  { intros i Hi. pose proof (le_INR i 2 ltac:(lia)) as Hi2.
    rewrite (INR_IZR_INZ 2) in Hi2.
    change (IZR (Z.of_nat 2)) with 2 in Hi2. lra. }
  assert (Hgt : 0.1 + INR 3 * 0.01 - 0.1 > 0.025).
  { rewrite (INR_IZR_INZ 3). change (IZR (Z.of_nat 3)) with 3. lra. }
  pose proof (X3_turn_lasts holding_controller 1%nat 0%nat 0.1 0.025 3
                Hdt Hge Hin eq_refl eq_refl eq_refl eq_refl Hle)
    as (Hrun & _ & Hrev).
  split; [exact Hdt|]. split; [exact Hge|]. split; [exact Hle|].
  split; [exact Hrun|exact (Hrev Hgt)].
Defined.

Lemma X4_stop_raises_witness :
  let self := REC.set_curr_state settled_controller STOP in
  REC.curr_time self >= REC.init_time self
  /\ REC.dn_drives self !! STOP = None
  /\ REC.step self = Raise (KeyError "WalkingState.STOP").
Proof.
  intros self.
  assert (Hge : REC.curr_time self >= REC.init_time self)
    by (change (0.1 >= 0.1); lra).
  assert (Hd : REC.dn_drives self !! STOP = None) by reflexivity.
  split; [exact Hge|]. split; [exact Hd|].
  exact (X4_stop_raises self Hge eq_refl Hd).
Defined.

Lemma X5_unprepared_turn_raises_witness :
  let self := REC.set_curr_state settled_controller TURN_RIGHT in
  REC.curr_time self >= REC.init_time self
  /\ REC.curr_state self ∈ [TURN_LEFT; TURN_RIGHT]
  /\ REC.step self = Raise (AttributeError "curr_state_start_time").
Proof.
  intros self.
  assert (Hge : REC.curr_time self >= REC.init_time self)
    by (change (0.1 >= 0.1); lra).
  assert (Hin : REC.curr_state self ∈ [TURN_LEFT; TURN_RIGHT])
    by (apply list_elem_of_In; right; now left).
  split; [exact Hge|]. split; [exact Hin|].
  exact (proj1 (X5_unprepared_turn_raises self Hge Hin) eq_refl).
Defined.

(** * Further properties of the drives on the heap *)

Section ControllerArrays.
Context {G : Type} `{RandomSource G}.
Import RandomExplorationController.

Lemma setitem_inv (h h' : heap) (a i : nat) (x : R) :
  setitem h a i x = Ok h' ->
  exists arr, h !! a = Some arr /\ h' = <[a := <[i := x]> arr]> h.
Proof.
  unfold setitem. destruct (h !! a) as [arr|]; [|discriminate].
  destruct (decide (i < length arr)%nat); [|discriminate].
  intros [= <-]. exists arr. split; reflexivity.
Qed.

Lemma setitem_other (h h' : heap) (a i l : nat) (x : R) :
  setitem h a i x = Ok h' -> l <> a -> h' !! l = h !! l.
Proof.
  intros E Hne. destruct (setitem_inv _ _ _ _ _ E) as (arr & _ & ->).
  apply list_lookup_insert_ne. auto.
Qed.

Lemma drive_value_drives_at (h : heap) (self : t G) (k : nat)
    (s : WalkingState) :
  dn_drives self = drives_at k -> s <> STOP ->
  drive_value h self s = h !! (k + Z.to_nat (WalkingState_value s))%nat.
Proof.
  intros Hd Hs. unfold drive_value. rewrite Hd.
  destruct s; try contradiction.
  - change (drives_at k !! FORWARD) with (Some k). simpl. f_equal. lia.
  - change (drives_at k !! TURN_LEFT) with (Some (S k)). simpl. f_equal. lia.
  - change (drives_at k !! TURN_RIGHT) with (Some (S (S k))). simpl.
    f_equal. lia.
Qed.

Lemma drive_value_stop (h : heap) (self : t G) (k : nat) :
  dn_drives self = drives_at k -> drive_value h self STOP = None.
Proof. intros Hd. unfold drive_value. rewrite Hd. reflexivity. Qed.

(** X6.  [__init__] leaves the arrays that exist as they are and adds
    three: the entries of [dn_drives] for [FORWARD], [TURN_LEFT] and
    [TURN_RIGHT] hold the numbers of the three tuples given, and there is
    no entry for [STOP]. *)
Theorem X6_init_stores_drives (h : heap) (dt0 : R) (fwd left right : R * R)
    (mean std lam : R) (seed : Z) (it : R) :
  let built := __init__ (G := G) h dt0 fwd left right mean std lam seed it in
  (forall l arr, h !! l = Some arr -> built.1 !! l = Some arr)
  /\ length built.1 = (length h + 3)%nat
  /\ drive_value built.1 built.2 FORWARD = Some [fwd.1; fwd.2]
  /\ drive_value built.1 built.2 TURN_LEFT = Some [left.1; left.2]
  /\ drive_value built.1 built.2 TURN_RIGHT = Some [right.1; right.2]
  /\ drive_value built.1 built.2 STOP = None.
Proof.
  intros built.
  assert (Hh : built.1 = h ++ [[fwd.1; fwd.2]; [left.1; left.2];
                               [right.1; right.2]]) by apply init_heap.
  assert (Hd : dn_drives built.2 = drives_at (length h))
    by apply init_dn_drives.
  split; [|split; [|split; [|split; [|split]]]].
  - intros l arr Hl. rewrite Hh. apply lookup_app_l_Some. exact Hl.
  - rewrite Hh, length_app. reflexivity.
  - rewrite (drive_value_drives_at _ _ _ _ Hd) by discriminate.
    rewrite Hh, lookup_after. reflexivity.
  - rewrite (drive_value_drives_at _ _ _ _ Hd) by discriminate.
    rewrite Hh, lookup_after. reflexivity.
  - rewrite (drive_value_drives_at _ _ _ _ Hd) by discriminate.
    rewrite Hh, lookup_after. reflexivity.
  - exact (drive_value_stop _ _ _ Hd).
Qed.

(** X7.  The drives do not share arrays.  For two instances built one
    after the other, an assignment to an element of the drive of state
    [s] of the first changes no drive of the second, no other drive of
    the first, and no array that existed before the two were built. *)
Theorem X7_drives_do_not_share (h h' : heap) (dt0 dt1 : R)
    (fwd left right fwd1 left1 right1 : R * R)
    (mean std lam mean1 std1 lam1 : R) (seed seed1 : Z) (it it1 : R)
    (s : WalkingState) (a i : nat) (x : R) :
  let ia := __init__ (G := G) h dt0 fwd left right mean std lam seed it in
  let ib :=
    __init__ (G := G) ia.1 dt1 fwd1 left1 right1 mean1 std1 lam1 seed1 it1 in
  dn_drives ia.2 !! s = Some a ->
  setitem ib.1 a i x = Ok h' ->
  (forall s', drive_value h' ib.2 s' = drive_value ib.1 ib.2 s')
  /\ (forall s', s' <> s -> drive_value h' ia.2 s' = drive_value ib.1 ia.2 s')
  /\ (forall l arr, h !! l = Some arr -> h' !! l = Some arr).
Proof.
  intros ia ib Ha Hset.
  assert (Hda : dn_drives ia.2 = drives_at (length h))
    by apply init_dn_drives.
  assert (Hlen : length ia.1 = (length h + 3)%nat).
  { unfold ia. rewrite init_heap, length_app. reflexivity. }
  assert (Hdb : dn_drives ib.2 = drives_at (length h + 3)).
  { unfold ib. rewrite init_dn_drives, Hlen. reflexivity. }
  rewrite Hda in Ha. apply drives_at_lookup in Ha as [-> Hs].
  assert (Hv : (Z.to_nat (WalkingState_value s) < 3)%nat)
    by (destruct s; simpl; try lia; contradiction).
  split; [|split].
  - intros s'. destruct (decide (s' = STOP)) as [->|Hs'].
    + rewrite !(drive_value_stop _ _ _ Hdb). reflexivity.
    + rewrite !(drive_value_drives_at _ _ _ _ Hdb) by exact Hs'.
      apply (setitem_other _ _ _ _ _ _ Hset). lia.
  - intros s' Hne. destruct (decide (s' = STOP)) as [->|Hs'].
    + rewrite !(drive_value_stop _ _ _ Hda). reflexivity.
    + rewrite !(drive_value_drives_at _ _ _ _ Hda) by exact Hs'.
      apply (setitem_other _ _ _ _ _ _ Hset).
      destruct s, s'; simpl; try lia; contradiction.
  - intros l arr Hl.
    rewrite (setitem_other _ _ _ _ _ _ Hset)
      by (apply lookup_lt_Some in Hl; lia).
    unfold ib. rewrite init_heap. apply lookup_app_l_Some.
    unfold ia. rewrite init_heap. apply lookup_app_l_Some. exact Hl.
Qed.

End ControllerArrays.
Lemma X7_drives_do_not_share_witness :
  let ia :=
    REC.__init__ (G := list R) [] 0.01 (1, 1) (- 0.4, 1.2) (1.2, - 0.4)
      0.4 0.1 1 0%Z 0.1 in
  let ib :=
    REC.__init__ (G := list R) ia.1 0.01 (1, 1) (- 0.4, 1.2) (1.2, - 0.4)
      0.4 0.1 1 0%Z 0.1 in
  let h' := [[5; 1]; [- 0.4; 1.2]; [1.2; - 0.4];
             [1; 1]; [- 0.4; 1.2]; [1.2; - 0.4]] in
  REC.dn_drives ia.2 !! FORWARD = Some 0%nat
  /\ setitem ib.1 0 0 5 = Ok h'
  /\ drive_value h' ib.2 FORWARD = drive_value ib.1 ib.2 FORWARD.
Proof.
  intros ia ib h'.
  assert (Ha : REC.dn_drives ia.2 !! FORWARD = Some 0%nat) by reflexivity.
  assert (Hset : setitem ib.1 0 0 5 = Ok h').
  { unfold setitem. simpl.
    destruct (decide (0 < 2)%nat); [reflexivity|lia]. }
  split; [exact Ha|]. split; [exact Hset|].
  exact (proj1 (X7_drives_do_not_share [] h' 0.01 0.01 (1, 1) (- 0.4, 1.2)
                  (1.2, - 0.4) (1, 1) (- 0.4, 1.2) (1.2, - 0.4)
                  0.4 0.1 1 0.4 0.1 1 0%Z 0%Z 0.1 0.1 FORWARD 0%nat 0%nat 5
                  Ha Hset) FORWARD).
Defined.

(** * Further properties of [PathIntegrationNMF] *)

Lemma rotate_vsub (theta : R) (u v : Vec2) :
  vsub (rotate theta u) (rotate theta v) = rotate theta (vsub u v).
Proof.
  destruct u, v. unfold vsub, rotate. simpl. f_equal; ring.
Qed.

Lemma norm_rotate (theta : R) (v : Vec2) : norm (rotate theta v) = norm v.
Proof.
  destruct v as [x y]. unfold norm, rotate. simpl. f_equal.
  pose proof (sin2_cos2 theta) as E. unfold Rsqr in E.
  transitivity ((x * x + y * y)
                * (sin theta * sin theta + cos theta * cos theta));
    [ring|rewrite E; ring].
Qed.

Lemma vsub_common (p q base : Vec2) :
  vsub (vsub p base) (vsub q base) = vsub p q.
Proof. destruct p, q, base. unfold vsub. simpl. f_equal; ring. Qed.

Lemma absolute_to_relative_pos_lookup (pos : list Vec2)
    (base_pos heading : Vec2) (i : nat) :
  PathIntegrationNMF.absolute_to_relative_pos pos base_pos heading !! i
  = (fun p => rotate (- heading_angle heading) (vsub p base_pos)) <$> pos !! i.
Proof.
  rewrite absolute_to_relative_pos_rotate.
  revert i. induction pos as [|p pos IH]; intros [|i]; try reflexivity.
  apply IH.
Qed.

(** X8.  The transform keeps distances: for a non-zero heading, two
    rows of the output are as far apart as the two rows of the input
    they come from. *)
Theorem X8_transform_keeps_distances (pos : list Vec2)
    (base_pos heading : Vec2) (i j : nat) (p q p' q' : Vec2) :
  heading <> (0, 0) ->
  pos !! i = Some p ->
  pos !! j = Some q ->
  PathIntegrationNMF.absolute_to_relative_pos pos base_pos heading !! i
  = Some p' ->
  PathIntegrationNMF.absolute_to_relative_pos pos base_pos heading !! j
  = Some q' ->
  norm (vsub p' q') = norm (vsub p q).
Proof.
  intros _ Hp Hq. rewrite !absolute_to_relative_pos_lookup, Hp, Hq. simpl.
  intros [= <-] [= <-].
  rewrite rotate_vsub, norm_rotate, vsub_common. reflexivity.
Qed.

(** X9.  The transform puts the heading on the first axis: for a
    non-zero heading, the point [c] headings ahead of the base comes out
    at [(c * |heading|, 0)]; the base itself comes out at the origin. *)
Theorem X9_heading_on_first_axis (base_pos heading : Vec2) (c : R) :
  heading <> (0, 0) ->
  PathIntegrationNMF.absolute_to_relative_pos
    [vadd (scale c heading) base_pos; base_pos] base_pos heading
  = [(c * norm heading, 0); (0, 0)].
Proof.
  intros Hne. rewrite absolute_to_relative_pos_rotate. simpl.
  destruct (heading_angle_cos_sin _ Hne) as [Hc Hs].
  pose proof (norm_pos _ Hne) as Hn. pose proof (norm_sqr heading) as Hsq.
  rewrite vsub_vadd.
  destruct heading as [hx hy], base_pos as [bx by_].
  unfold rotate, vsub, scale. simpl in *.
  rewrite cos_neg, sin_neg, Hc, Hs.
  f_equal; [|f_equal; f_equal; ring].
  f_equal.
  - transitivity (c * (hx * hx + hy * hy) / norm (hx, hy)); [field; lra|].
    rewrite <- Hsq. field. lra.
  - field. lra.
Qed.

Lemma norm_scale (c : R) (v : Vec2) : 0 < c -> norm (scale c v) = c * norm v.
Proof.
  intros Hc. destruct v as [x y]. unfold norm, scale. simpl.
  replace (c * x * (c * x) + c * y * (c * y))
    with (c * c * (x * x + y * y)) by ring.
  rewrite sqrt_mult by nra. rewrite sqrt_square by lra. reflexivity.
Qed.

(** X10.  Only the direction of the heading counts: a heading and its
    multiple by a positive number give the same output. *)
Theorem X10_heading_length_is_irrelevant (pos : list Vec2)
    (base_pos heading : Vec2) (c : R) :
  heading <> (0, 0) ->
  0 < c ->
  PathIntegrationNMF.absolute_to_relative_pos pos base_pos (scale c heading)
  = PathIntegrationNMF.absolute_to_relative_pos pos base_pos heading.
Proof.
  intros Hne Hc. rewrite !absolute_to_relative_pos_rotate.
  assert (E : heading_angle (scale c heading) = heading_angle heading).
  { unfold heading_angle. rewrite (norm_scale _ _ Hc).
    pose proof (norm_pos _ Hne) as Hn.
    destruct heading as [hx hy]. unfold scale. simpl fst. simpl snd.
    f_equal; field; lra. }
  rewrite E. reflexivity.
Qed.

Lemma X8_transform_keeps_distances_witness :
  ((3, 4) : Vec2) <> (0, 0)
  /\ forall p' q',
      PathIntegrationNMF.absolute_to_relative_pos [(1, 2); (5, 5)] (7, 8) (3, 4)
      !! 0%nat = Some p' ->
      PathIntegrationNMF.absolute_to_relative_pos [(1, 2); (5, 5)] (7, 8) (3, 4)
      !! 1%nat = Some q' ->
      norm (vsub p' q') = norm (vsub (1, 2) (5, 5)).
Proof.
  assert (Hne : ((3, 4) : Vec2) <> (0, 0)).
  { intros E. injection E as E1 E2. lra. }
  split; [exact Hne|]. intros p' q'.
  exact (X8_transform_keeps_distances [(1, 2); (5, 5)] (7, 8) (3, 4)
           0 1 (1, 2) (5, 5) p' q' Hne eq_refl eq_refl).
Defined.

Lemma X9_heading_on_first_axis_witness :
  ((3, 4) : Vec2) <> (0, 0)
  /\ PathIntegrationNMF.absolute_to_relative_pos
       [vadd (scale 2 (3, 4)) (7, 8); (7, 8)] (7, 8) (3, 4)
     = [(2 * norm (3, 4), 0); (0, 0)].
Proof.
  assert (Hne : ((3, 4) : Vec2) <> (0, 0)).
  { intros E. injection E as E1 E2. lra. }
  split; [exact Hne|].
  exact (X9_heading_on_first_axis (7, 8) (3, 4) 2 Hne).
Defined.

Lemma X10_heading_length_is_irrelevant_witness :
  ((3, 4) : Vec2) <> (0, 0)
  /\ 0 < 2
  /\ PathIntegrationNMF.absolute_to_relative_pos [(1, 2)] (7, 8)
       (scale 2 (3, 4))
     = PathIntegrationNMF.absolute_to_relative_pos [(1, 2)] (7, 8) (3, 4).
Proof.
  assert (Hne : ((3, 4) : Vec2) <> (0, 0)).
  { intros E. injection E as E1 E2. lra. }
  assert (Hc : 0 < 2) by lra.
  split; [exact Hne|]. split; [exact Hc|].
  exact (X10_heading_length_is_irrelevant [(1, 2)] (7, 8) (3, 4) 2 Hne Hc).
Defined.

Section StationaryFly.
Context {Base Action Info Extra Hist : Type}.
Context (super_step :
           Base -> Action -> Base * (list Vec3 * (Vec3 * list Vec3) * Vec3 * Extra)
                                * R * bool * bool * Info).
Context (update_cam_pos : Base -> Vec2 -> Base).
Import PathIntegrationNMF.

(** X11.  For a fly that stays at the origin heading along the first
    axis -- in the previous call and in this one -- the attached stride
    difference is the raw difference of the end effector positions of
    the two calls, leg by leg. *)
Theorem X11_stride_of_stationary_fly
    (self : t (Base := Base) (Hist := Hist)) (action : Action)
    (ee_prev : list Vec3) b ee fl ori extra reward terminated truncated info :
  super_step (base self) action
  = (b, (ee, fl, ori, extra), reward, terminated, truncated, info) ->
  xy fl.1 = (0, 0) ->
  xy ori = (1, 0) ->
  _last_end_effector_pos self
  = Some (absolute_to_relative_pos (map xy ee_prev) (0, 0) (1, 0)) ->
  length ee_prev = length ee ->
  step super_step update_cam_pos self action
  = Ok (Build (update_cam_pos b (0, 0)) (Some (map xy ee))
          (total_stride_lengths_hist self) (heading_estimate_hist self)
          (pos_estimate_hist self),
        (BuildObs ee fl ori (zip_with vsub (map xy ee) (map xy ee_prev)) extra,
         reward, terminated, truncated, info)).
Proof.
  intros E Hfl Hori Hlast Hlen. unfold step.
  rewrite E, Hlast, Hfl, Hori, !absolute_to_relative_pos_identity.
  rewrite np_sub_same_length by (rewrite !length_map; symmetry; exact Hlen).
  reflexivity.
Qed.

End StationaryFly.

Lemma X11_stride_of_stationary_fly_witness :
  let self :=
    PathIntegrationNMF.Build (Hist := unit) (0 + 1)
      (Some (PathIntegrationNMF.absolute_to_relative_pos
               (map xy [(0, 2, 3); (4, 0, 6)]) (0, 0) (1, 0))) [] [] [] in
  let ee := [(0 + 1, 2, 3); (4, 0 + 1, 6)] in
  counting_step (PathIntegrationNMF.base self) tt
  = (0 + 1 + 1, (ee, ((0, 0, 0.5), []), (1, 0, 0), tt), 0, false, false, tt)
  /\ PathIntegrationNMF.step counting_step (fun b _ => b) self tt
     = Ok (PathIntegrationNMF.Build (0 + 1 + 1) (Some (map xy ee)) [] [] [],
           (PathIntegrationNMF.BuildObs ee ((0, 0, 0.5), []) (1, 0, 0)
              (zip_with vsub (map xy ee) (map xy [(0, 2, 3); (4, 0, 6)])) tt,
            0, false, false, tt)).
Proof.
  intros self ee.
  assert (E : counting_step (PathIntegrationNMF.base self) tt
              = (0 + 1 + 1, (ee, ((0, 0, 0.5), []), (1, 0, 0), tt),
                 0, false, false, tt)) by reflexivity.
  split; [exact E|].
  exact (X11_stride_of_stationary_fly counting_step (fun b _ => b) self tt
           [(0, 2, 3); (4, 0, 6)] _ _ _ _ _ _ _ _ _ E eq_refl eq_refl eq_refl
           eq_refl).
Defined.

(** * Further properties of [MovingFlyArena] *)

Lemma norm_heading_pos (u : R) : 0 < norm (1, u).
Proof. unfold norm. simpl. apply sqrt_lt_R0. nra. Qed.

Lemma arctan2_scale (k x y : R) :
  0 < k -> arctan2 (k * y) (k * x) = arctan2 y x.
Proof.
  intros Hk. unfold arctan2.
  destruct (Rlt_dec 0 x) as [Hx|Hx].
  - destruct (Rlt_dec 0 (k * x)); [|nra]. f_equal. field. lra.
  - destruct (Rlt_dec 0 (k * x)); [nra|].
    destruct (Rlt_dec x 0) as [Hx'|Hx'].
    + destruct (Rlt_dec (k * x) 0); [|nra].
      destruct (Rle_dec 0 y); destruct (Rle_dec 0 (k * y)); try nra;
        f_equal; f_equal; field; lra.
    + destruct (Rlt_dec (k * x) 0); [nra|].
      destruct (Rlt_dec 0 y); destruct (Rlt_dec 0 (k * y)); try nra;
        try reflexivity.
      destruct (Rlt_dec y 0); destruct (Rlt_dec (k * y) 0); try nra;
        reflexivity.
Qed.

Section ArenaMotion.
Context {Physics : Type}.
Context (set_qpos : Physics -> Vec3 * (R * R * R * R) -> Physics).
Import MovingFlyArena.

(** X12.  A step moves the fly in the plane by exactly
    [|move_speed * dt|], whatever the lateral magnitude and the time; the
    height stays, the clock advances by [dt], the position is remembered
    as the previous one, and the rest of the arena is as it was. *)
Theorem X12_step_moves_by_speed (self : t) (dt : R) (physics : Physics) :
  let self' := (step set_qpos self dt physics).1 in
  norm (vsub (xy (fly_pos self')) (xy (fly_pos self)))
  = Rabs (move_speed self * dt)
  /\ (fly_pos self').2 = (fly_pos self).2
  /\ curr_time self' = curr_time self + dt
  /\ _prev_pos self' = xy (fly_pos self')
  /\ self' = Build (terrain self) (init_fly_pos self) (fly_pos self')
               (friction self) (move_speed self) (curr_time self + dt)
               (move_direction self) (lateral_magnitude self) (y_mult self)
               (blocks_attrs self) (asset self) (worldbody self)
               (xy (fly_pos self')).
Proof.
  intros self'. split; [|repeat split].
  unfold self', step. cbn [fst snd fly_pos xy vsub].
  fold (lateral_slope self).
  set (u := lateral_slope self).
  pose proof (norm_heading_pos u) as Hn.
  pose proof (norm_sqr (1, u)) as Hsq. cbn [fst snd] in Hsq.
  set (n := norm (1, u)) in *.
  unfold norm at 1. cbn [fst snd].
  rewrite <- sqrt_Rsqr_abs. f_equal. unfold Rsqr, vsub, xy. cbn [fst snd].
  transitivity (move_speed self * dt * (move_speed self * dt)
                * ((1 * 1 + u * u) / (n * n))); [field; lra|].
  rewrite <- Hsq. field. lra.
Qed.

(** The displacement of a step. *)
Lemma step_displacement (self : t) (dt : R) (physics : Physics) :
  let self' := (step set_qpos self dt physics).1 in
  let n := norm (1, lateral_slope self) in
  (fly_pos self').1.1 - (fly_pos self).1.1 = move_speed self * dt / n
  /\ (fly_pos self').1.2 - (fly_pos self).1.2
     = move_speed self * dt / n * lateral_slope self.
Proof.
  intros self' n. unfold self', step. cbn [fst snd fly_pos].
  fold (lateral_slope self). fold n.
  pose proof (norm_heading_pos (lateral_slope self)) as Hn. fold n in Hn.
  split; field; lra.
Qed.

(** X13.  In a step the lateral displacement is the forward
    displacement times [lateral_magnitude * cos (3 * curr_time) * y_mult].
    With a positive [move_speed * dt] the fly advances along the first
    axis; with [y_mult] 1 or -1 the lateral displacement is at most
    [|lateral_magnitude|] times the forward one. *)
Theorem X13_step_lateral_ratio (self : t) (dt : R) (physics : Physics) :
  let self' := (step set_qpos self dt physics).1 in
  let dx := (fly_pos self').1.1 - (fly_pos self).1.1 in
  let dy := (fly_pos self').1.2 - (fly_pos self).1.2 in
  dy = dx * lateral_slope self
  /\ (move_speed self * dt > 0 -> dx > 0)
  /\ (y_mult self = 1%Z \/ y_mult self = (-1)%Z ->
      Rabs dy <= Rabs (lateral_magnitude self) * Rabs dx).
Proof.
  intros self' dx dy.
  destruct (step_displacement self dt physics) as [Ex Ey].
  pose proof (norm_heading_pos (lateral_slope self)) as Hn.
  set (n := norm (1, lateral_slope self)) in *.
  unfold dx, dy, self'.
  rewrite Ex, Ey. split; [reflexivity|]. split.
  - intros Hpos. apply Rdiv_lt_0_compat; lra.
  - intros Hy. rewrite Rabs_mult, (Rmult_comm (Rabs (lateral_magnitude self))).
    apply Rmult_le_compat_l; [apply Rabs_pos|].
    unfold lateral_slope. rewrite !Rabs_mult.
    assert (Hc : Rabs (cos (curr_time self * 3)) <= 1).
    { apply Rabs_le. pose proof (COS_bound (curr_time self * 3)). lra. }
    assert (Hm : Rabs (IZR (y_mult self)) = 1).
    { destruct Hy as [-> | ->]; [apply Rabs_R1|].
      rewrite Rabs_left; lra. }
    rewrite Hm. pose proof (Rabs_pos (lateral_magnitude self)). nra.
Qed.

(** X14.  The [qpos] a step writes is the new position followed by a
    quaternion [(cos (a / 2), 0, 0, sin (a / 2))]: a unit quaternion
    turning about the vertical.  When the remembered previous position
    is the position before the step and [move_speed * dt] is positive,
    [a] is the direction of the heading of this step. *)
Theorem X14_step_quaternion (self : t) (dt : R) (physics : Physics) :
  let self' := (step set_qpos self dt physics).1 in
  let n := norm (1, lateral_slope self) in
  exists a,
    (step set_qpos self dt physics).2
    = set_qpos physics (fly_pos self', (cos (a / 2), 0, 0, sin (a / 2)))
    /\ cos (a / 2) * cos (a / 2) + sin (a / 2) * sin (a / 2) = 1
    /\ (_prev_pos self = xy (fly_pos self) -> move_speed self * dt > 0 ->
        cos a = 1 / n /\ sin a = lateral_slope self / n).
Proof.
  intros self' n.
  pose proof (norm_heading_pos (lateral_slope self)) as Hn. fold n in Hn.
  eexists. split; [reflexivity|]. split.
  - pose proof (sin2_cos2
                  (arctan2
                     (vsub (xy (fly_pos self')) (_prev_pos self)).2
                     (vsub (xy (fly_pos self')) (_prev_pos self)).1 / 2)) as E.
    unfold Rsqr in E. unfold self' in E. cbn [fst snd fly_pos step] in E.
    cbn [fst snd]. lra.
  - intros Hprev Hpos. cbn [fst snd]. rewrite Hprev.
    cbn [fst snd xy vsub]. fold (lateral_slope self). fold n.
    replace ((fly_pos self).1.1 + move_speed self * (1 / n) * dt
             - (fly_pos self).1.1)
      with (move_speed self * dt * (1 / n)) by ring.
    replace ((fly_pos self).1.2
             + move_speed self * (lateral_slope self / n) * dt
             - (fly_pos self).1.2)
      with (move_speed self * dt * (lateral_slope self / n)) by ring.
    rewrite (arctan2_scale _ _ _ Hpos).
    apply arctan2_unit.
    pose proof (norm_sqr (1, lateral_slope self)) as Hsq.
    fold n in Hsq. cbn [fst snd] in Hsq.
    transitivity ((1 * 1 + lateral_slope self * lateral_slope self)
                  / (n * n)); [field; lra|].
    rewrite <- Hsq. field. lra.
Qed.

End ArenaMotion.

Section ArenaLife.
Context {G : Type} `{RandomSource G}.
Context {Physics ObjectBody : Type}.
Context (set_qpos : Physics -> Vec3 * (R * R * R * R) -> Physics).
Context (set_mocap_pos : Physics -> ObjectBody -> Vec3 -> Physics).
Context (object_body : option ObjectBody).
Import MovingFlyArena.

(** The attributes of the arena [__init__] returns. *)
Lemma init_attributes (np_random : G) (terrain : string)
    (x_range y_range : Vec2) (block_size : R) (height_range : Vec2)
    (rand_seed : Z) (ground_alpha : R) (friction : Vec3) (obj_radius : R)
    (init_fly_pos : Vec2) (move_speed : R) (move_direction : string)
    (lateral_magnitude : R) (arena : t) :
  (__init__ np_random terrain x_range y_range block_size height_range
     rand_seed ground_alpha friction obj_radius init_fly_pos move_speed
     move_direction lateral_magnitude).1 = Ok arena ->
  MovingFlyArena.curr_time arena = 0
  /\ MovingFlyArena.fly_pos arena
     = (init_fly_pos.1, init_fly_pos.2, obj_radius)
  /\ MovingFlyArena.init_fly_pos arena
     = (init_fly_pos.1, init_fly_pos.2, obj_radius)
  /\ MovingFlyArena._prev_pos arena = init_fly_pos
  /\ MovingFlyArena.move_speed arena = move_speed
  /\ MovingFlyArena.lateral_magnitude arena = lateral_magnitude
  /\ MovingFlyArena.move_direction arena = move_direction
  /\ (choose_y_mult np_random move_direction).1 = Ok (y_mult arena).
Proof.
  unfold __init__.
  destruct (choose_y_mult np_random move_direction) as [[y|e] g];
    [|discriminate].
  simpl.
  destruct (add_ground _ _ _ _ _ _ _ _) as [[[attrs asset] body]|e];
    [|discriminate].
  simpl. intros [= <-]. simpl. destruct init_fly_pos. repeat split.
Qed.

(** X15.  The first step goes to the side [move_direction] names.  On
    an arena built with a positive [lateral_magnitude], a first step
    with a positive [move_speed * dt] advances along the first axis, and
    moves to larger second coordinates for "left", to smaller ones for
    "right". *)
Theorem X15_first_step_side (np_random : G) (terrain : string)
    (x_range y_range : Vec2) (block_size : R) (height_range : Vec2)
    (rand_seed : Z) (ground_alpha : R) (friction : Vec3) (obj_radius : R)
    (init_fly_pos : Vec2) (move_speed : R) (move_direction : string)
    (lateral_magnitude : R) (arena : t) (dt : R) (physics : Physics) :
  (__init__ np_random terrain x_range y_range block_size height_range
     rand_seed ground_alpha friction obj_radius init_fly_pos move_speed
     move_direction lateral_magnitude).1 = Ok arena ->
  0 < lateral_magnitude ->
  0 < move_speed * dt ->
  let moved := (step set_qpos arena dt physics).1 in
  (fly_pos moved).1.1 > init_fly_pos.1
  /\ (move_direction = "left" -> (fly_pos moved).1.2 > init_fly_pos.2)
  /\ (move_direction = "right" -> (fly_pos moved).1.2 < init_fly_pos.2).
Proof.
  intros E Hlm Hms moved.
  destruct (init_attributes _ _ _ _ _ _ _ _ _ _ _ _ _ _ _ E)
    as (Ht & Hpos & _ & _ & Hspeed & Hlat & _ & Hy).
  destruct (step_displacement set_qpos arena dt physics) as [Ex Ey].
  fold moved in Ex, Ey. rewrite Hpos, Hspeed in Ex, Ey.
  cbn [fst snd] in Ex, Ey.
  pose proof (norm_heading_pos (lateral_slope arena)) as Hn.
  set (n := norm (1, lateral_slope arena)) in *.
  assert (Hq : 0 < move_speed * dt / n) by (apply Rdiv_lt_0_compat; lra).
  assert (Hslope : lateral_slope arena
                   = lateral_magnitude * IZR (y_mult arena)).
  { unfold lateral_slope. rewrite Ht, Hlat.
    replace (0 * 3) with 0 by ring. rewrite cos_0. ring. }
  split; [lra|]. split.
  - intros ->. simpl in Hy. injection Hy as Hy. rewrite <- Hy in Hslope.
    rewrite Hslope in Ey. nra.
  - intros ->. simpl in Hy. injection Hy as Hy. rewrite <- Hy in Hslope.
    rewrite Hslope in Ey. nra.
Qed.

(** Steps change the position, the clock and the remembered position
    only. *)
Lemma arena_steps_static (dts : list R) : forall (self : t) (physics : Physics),
  let moved := (arena_steps set_qpos self dts physics).1 in
  moved = Build (terrain self) (init_fly_pos self) (fly_pos moved)
            (friction self) (move_speed self)
            (MovingFlyArena.curr_time moved) (move_direction self)
            (lateral_magnitude self) (y_mult self) (blocks_attrs self)
            (asset self) (worldbody self) (_prev_pos moved).
Proof.
  induction dts as [|dt dts IH]; intros self physics.
  - simpl. destruct self; reflexivity.
  - simpl. exact (IH _ _).
Qed.

(** X16.  [reset] undoes the steps.  On an arena built by [__init__]
    and moved by any steps, [reset] gives back the arena as built when
    [move_direction] is not "random", without touching the global
    generator; for "random" it gives it back but for [y_mult], drawn
    again among -1 and 1 from the global generator.  The attributes are
    restored before [object_body] is read: without that attribute the
    call raises [AttributeError] at its last line, with it the mocap
    position is set to the initial position. *)
Theorem X16_reset_undoes_steps (np_random : G) (terrain : string)
    (x_range y_range : Vec2) (block_size : R) (height_range : Vec2)
    (rand_seed : Z) (ground_alpha : R) (friction : Vec3) (obj_radius : R)
    (init_fly_pos : Vec2) (move_speed : R) (move_direction : string)
    (lateral_magnitude : R) (arena : t) (dts : list R)
    (physics physics' : Physics) (g : G) :
  (__init__ np_random terrain x_range y_range block_size height_range
     rand_seed ground_alpha friction obj_radius init_fly_pos move_speed
     move_direction lateral_magnitude).1 = Ok arena ->
  let moved := (arena_steps set_qpos arena dts physics).1 in
  let r := reset set_mocap_pos object_body g moved physics' in
  (move_direction <> "random" -> r.1.1 = arena /\ r.1.2 = g)
  /\ (move_direction = "random" ->
      exists y,
        (y = 1%Z \/ y = (-1)%Z)
        /\ draws g [Choice 2] r.1.2
        /\ r.1.1 = Build (MovingFlyArena.terrain arena)
                     (MovingFlyArena.init_fly_pos arena) (fly_pos arena)
                     (MovingFlyArena.friction arena)
                     (MovingFlyArena.move_speed arena) 0
                     (MovingFlyArena.move_direction arena)
                     (MovingFlyArena.lateral_magnitude arena) y
                     (blocks_attrs arena) (asset arena) (worldbody arena)
                     (_prev_pos arena))
  /\ (object_body = None -> r.2 = Raise (AttributeError "object_body"))
  /\ (forall body, object_body = Some body ->
      r.2 = Ok (set_mocap_pos physics' body (fly_pos arena))).
Proof.
  intros E moved r.
  destruct (init_attributes _ _ _ _ _ _ _ _ _ _ _ _ _ _ _ E)
    as (Ht & Hpos & Hinit & Hprev & _ & _ & Hmd & _).
  pose proof (arena_steps_static dts arena physics) as Hm. fold moved in Hm.
  assert (Hxy : xy (MovingFlyArena.init_fly_pos arena) = _prev_pos arena).
  { rewrite Hinit, Hprev. destruct init_fly_pos. reflexivity. }
  assert (Hfp : MovingFlyArena.init_fly_pos arena = fly_pos arena)
    by congruence.
  unfold r, reset. rewrite Hm. cbn [MovingFlyArena.move_direction
    MovingFlyArena.init_fly_pos MovingFlyArena.y_mult MovingFlyArena.terrain
    MovingFlyArena.friction MovingFlyArena.move_speed
    MovingFlyArena.lateral_magnitude blocks_attrs asset worldbody].
  rewrite Hmd, Hxy, Hfp.
  split; [|split; [|split]].
  - intros Hne. apply String.eqb_neq in Hne. rewrite Hne. cbn [fst snd].
    split; [|reflexivity].
    rewrite <- Ht, <- Hmd. destruct arena. simpl in *. subst. reflexivity.
  - intros ->. cbn [String.eqb Ascii.eqb Bool.eqb].
    pose proof (rs_choice_In Z (-1)%Z [1%Z] g) as Hin.
    pose proof (draw_choice g Z (-1)%Z [1%Z]) as Hdraw.
    destruct (rs_choice (-1)%Z [1%Z] g) as [y g']. cbn [fst snd] in *.
    exists y. split; [simpl in Hin; intuition|].
    split; [eapply draws_cons; [exact Hdraw|constructor]|].
    rewrite <- Hmd. reflexivity.
  - intros ->.
    destruct (if String.eqb move_direction "random" then _ else _).
    reflexivity.
  - intros body ->.
    destruct (if String.eqb move_direction "random" then _ else _).
    reflexivity.
Qed.

(** X17.  [__init__] takes from numpy's global generator exactly one
    choice among two when [move_direction] is "random", and nothing
    otherwise -- whatever the terrain, and also when it raises: the
    blocks are drawn from a generator of their own. *)
Theorem X17_init_global_generator (np_random : G) (terrain : string)
    (x_range y_range : Vec2) (block_size : R) (height_range : Vec2)
    (rand_seed : Z) (ground_alpha : R) (friction : Vec3) (obj_radius : R)
    (init_fly_pos : Vec2) (move_speed : R) (move_direction : string)
    (lateral_magnitude : R) :
  let after :=
    (__init__ np_random terrain x_range y_range block_size height_range
       rand_seed ground_alpha friction obj_radius init_fly_pos move_speed
       move_direction lateral_magnitude).2 in
  (move_direction = "random" -> draws np_random [Choice 2] after)
  /\ (move_direction <> "random" -> after = np_random).
Proof.
  intros after.
  assert (E : after = (choose_y_mult np_random move_direction).2).
  { unfold after, __init__.
    destruct (choose_y_mult np_random move_direction). reflexivity. }
  rewrite E. unfold choose_y_mult. split.
  - intros ->. cbn [String.eqb Ascii.eqb Bool.eqb].
    pose proof (draw_choice np_random Z (-1)%Z [1%Z]) as Hdraw.
    destruct (rs_choice (-1)%Z [1%Z] np_random) as [y g'].
    eapply draws_cons; [exact Hdraw|constructor].
  - intros Hne. apply String.eqb_neq in Hne. rewrite Hne.
    destruct (String.eqb move_direction "left"); [reflexivity|].
    destruct (String.eqb move_direction "right"); reflexivity.
Qed.

End ArenaLife.

Lemma X15_first_step_side_witness :
  exists arena,
    (default_arena "flat" "left").1 = Ok arena
    /\ 0 < 2
    /\ 0 < 10 * 0.01
    /\ (MovingFlyArena.fly_pos
          (MovingFlyArena.step (fun (p : unit) _ => p) arena 0.01 tt).1).1.2
       > 0.
Proof.
  assert (Hlm : 0 < 2) by lra.
  assert (Hms : 0 < 10 * 0.01) by lra.
  eexists. split; [reflexivity|]. split; [exact Hlm|]. split; [exact Hms|].
  exact (proj1 (proj2
           (X15_first_step_side (fun (p : unit) _ => p) [0.7] "flat"
              (- 10, 25) (- 20, 20) 1.3 (0.2, 0.2) 0%Z 1 (1, 0.005, 0.0001)
              1 (5, 0) 10 "left" 2 _ 0.01 tt eq_refl Hlm Hms)) eq_refl).
Defined.

Lemma X16_reset_undoes_steps_witness :
  exists arena,
    (default_arena "flat" "right").1 = Ok arena
    /\ (MovingFlyArena.reset (fun (p : unit) (_ : unit) _ => p) None [0.3]
          (arena_steps (fun (p : unit) _ => p) arena [0.01; 0.02] tt).1
          tt).1.1
       = arena.
Proof.
  eexists. split; [reflexivity|].
  refine (proj1 (proj1
            (X16_reset_undoes_steps (fun (p : unit) _ => p)
               (fun (p : unit) (_ : unit) _ => p) None [0.7] "flat"
               (- 10, 25) (- 20, 20) 1.3 (0.2, 0.2) 0%Z 1 (1, 0.005, 0.0001)
               1 (5, 0) 10 "right" 2 _ [0.01; 0.02] tt tt [0.3] eq_refl) _)).
  discriminate.
Defined.

Section ArenaBlocks.
Context {G : Type} `{RandomSource G}.
Import MovingFlyArena.

Lemma parity_differs (i j : nat) :
  i `mod` 2 <> j `mod` 2 ->
  negb (eqb (bool_decide (i `mod` 2 = 1)%nat) (bool_decide (j `mod` 2 = 1)%nat))
  = true.
Proof.
  intros Hne.
  pose proof (Nat.mod_upper_bound i 2 ltac:(lia)).
  pose proof (Nat.mod_upper_bound j 2 ltac:(lia)).
  destruct (bool_decide_reflect (i `mod` 2 = 1)%nat);
    destruct (bool_decide_reflect (j `mod` 2 = 1)%nat);
    try reflexivity; exfalso; lia.
Qed.

(** One block: a box is appended; on a cell whose indices differ in
    parity its height is 0.1 and the generator is not used. *)
Lemma add_block_spec (block_size : R) (height_range : Vec2)
    (ground_alpha : R) (friction : Vec3) (i : nat) (x : R) (g : G)
    (body : list mjcf_element) (j : nat) (y : R) :
  exists g' height,
    add_block block_size height_range ground_alpha friction i x (g, body) (j, y)
    = (g', body ++ [block_box block_size ground_alpha friction x y height])
    /\ (i `mod` 2 <> j `mod` 2 -> height = 0.1 /\ g' = g).
Proof.
  unfold add_block.
  destruct (negb (eqb (bool_decide (i `mod` 2 = 1)%nat)
                    (bool_decide (j `mod` 2 = 1)%nat))) eqn:E.
  - exists g, 0.1. split; [reflexivity|]. intros _. split; reflexivity.
  - destruct (rs_uniform height_range.1 height_range.2 g) as [u g'].
    exists g', (0.1 + u). split; [reflexivity|].
    intros Hne. rewrite (parity_differs _ _ Hne) in E. discriminate.
Qed.

Lemma add_block_row (block_size : R) (height_range : Vec2)
    (ground_alpha : R) (friction : Vec3) (i : nat) (x : R)
    (l : list (nat * R)) : forall (g : G) (body : list mjcf_element),
  exists g' boxes,
    foldl (add_block block_size height_range ground_alpha friction i x)
      (g, body) l
    = (g', body ++ boxes)
    /\ Forall2
         (fun c box =>
            exists height,
              box = block_box block_size ground_alpha friction c.1.2 c.2 height
              /\ (c.1.1.1 `mod` 2 <> c.1.1.2 `mod` 2 -> height = 0.1))
         (map (fun jy => (i, jy.1, x, jy.2)) l) boxes.
Proof.
  induction l as [|[j y] l IH]; intros g body.
  - exists g, []. split; [simpl; rewrite app_nil_r; reflexivity|constructor].
  - destruct (add_block_spec block_size height_range ground_alpha friction
                i x g body j y) as (g1 & height & E1 & Hh).
    destruct (IH g1 (body ++ [block_box block_size ground_alpha friction
                                x y height])) as (g' & boxes & E & Hall).
    exists g', (block_box block_size ground_alpha friction x y height :: boxes).
    split.
    + cbn [foldl]. rewrite E1, E, <- app_assoc. reflexivity.
    + cbn [map fst snd]. constructor; [|exact Hall].
      exists height. split; [reflexivity|]. cbn [fst snd]. intros Hne.
      exact (proj1 (Hh Hne)).
Qed.

Lemma add_block_rows (block_size : R) (height_range : Vec2)
    (ground_alpha : R) (friction : Vec3) (ys : list R)
    (lx : list (nat * R)) : forall (g : G) (body : list mjcf_element),
  exists g' boxes,
    foldl
      (fun acc ix =>
         foldl
           (add_block block_size height_range ground_alpha friction ix.1 ix.2)
           acc (enumerate ys))
      (g, body) lx
    = (g', body ++ boxes)
    /\ Forall2
         (fun c box =>
            exists height,
              box = block_box block_size ground_alpha friction c.1.2 c.2 height
              /\ (c.1.1.1 `mod` 2 <> c.1.1.2 `mod` 2 -> height = 0.1))
         (flat_map
            (fun ix => map (fun jy => (ix.1, jy.1, ix.2, jy.2)) (enumerate ys))
            lx)
         boxes.
Proof.
  induction lx as [|[i x] lx IH]; intros g body.
  - exists g, []. split; [simpl; rewrite app_nil_r; reflexivity|constructor].
  - destruct (add_block_row block_size height_range ground_alpha friction
                i x (enumerate ys) g body) as (g1 & row & E1 & Hrow).
    destruct (IH g1 (body ++ row)) as (g' & boxes & E & Hall).
    exists g', (row ++ boxes). split.
    + cbn [foldl fst snd]. rewrite E1, E, <- app_assoc. reflexivity.
    + cbn [flat_map fst snd]. apply Forall2_app; assumption.
Qed.

Lemma length_enumerate {A : Type} (l : list A) :
  length (enumerate l) = length l.
Proof.
  unfold enumerate. rewrite length_zip_with, length_seq. lia.
Qed.

Lemma length_grid (xs ys : list R) :
  length (grid xs ys) = (length xs * length ys)%nat.
Proof.
  unfold grid. rewrite <- (length_enumerate xs).
  induction (enumerate xs) as [|ix lx IH]; [reflexivity|].
  simpl. rewrite length_app, length_map, length_enumerate, IH. reflexivity.
Qed.

Lemma arange_lookup (start stop step : R) (xs : list R) (i : nat) (x : R) :
  arange start stop step = Ok xs ->
  xs !! i = Some x ->
  x = start + INR i * step.
Proof.
  unfold arange. destruct (Req_dec_T step 0) as [|_]; [discriminate|].
  intros [= <-].
  generalize (Z.to_nat (Rceil ((stop - start) / step))). intros m.
  change i with (0 + i)%nat at 2. generalize 0%nat. revert i.
  induction m as [|m IH]; intros i k; [discriminate|].
  destruct i as [|i]; simpl.
  - intros [= <-]. rewrite Nat.add_0_r. reflexivity.
  - intros Hx. rewrite <- Nat.add_succ_comm. exact (IH i (S k) Hx).
Qed.

Lemma length_arange (start stop step : R) (xs : list R) :
  arange start stop step = Ok xs ->
  step <> 0
  /\ length xs = Z.to_nat (Rceil ((stop - start) / step)).
Proof.
  unfold arange. destruct (Req_dec_T step 0) as [|Hs]; [discriminate|].
  intros [= <-]. split; [exact Hs|].
  rewrite length_map, length_seq. reflexivity.
Qed.

(** A range that starts below its end, with a positive step, has a
    first element. *)
Lemma arange_nonempty (start stop step : R) (xs : list R) :
  arange start stop step = Ok xs ->
  0 < step -> start < stop -> xs <> [].
Proof.
  intros E Hstep Hlt Hnil.
  destruct (length_arange _ _ _ _ E) as [_ Hlen].
  rewrite Hnil in Hlen. simpl in Hlen.
  assert (Hpos : 0 < (stop - start) / step).
  { apply Rdiv_lt_0_compat; lra. }
  destruct (archimed (- ((stop - start) / step))) as [_ Hup].
  assert (Hup0 : (up (- ((stop - start) / step)) <= 0)%Z).
  { apply Z.lt_succ_r. apply lt_IZR.
    change (Z.succ 0) with 1%Z. lra. }
  unfold Rceil in Hlen. lia.
Qed.

Lemma add_blocks_Ok (x_range y_range : Vec2) (block_size : R)
    (height_range : Vec2) (rand_seed : Z) (ground_alpha : R)
    (friction : Vec3) :
  block_size <> 0 ->
  exists body,
    add_blocks (G := G) x_range y_range block_size height_range rand_seed
      ground_alpha friction
    = Ok body.
Proof.
  intros Hbs. unfold add_blocks, arange.
  destruct (Req_dec_T block_size 0); [contradiction|].
  simpl.
  match goal with
  | |- context [foldl ?f ?a ?l] => destruct (foldl f a l) as [g' body]
  end.
  eexists. reflexivity.
Qed.

(** X18.  The "blocks" ground, when it is built: the block size is not
    zero; the centres along each axis are what [np.arange] returns from
    the lower bound plus half a block up to the upper bound in steps of
    [block_size], so centre [i] is at the lower bound plus
    [block_size / 2 + i * block_size], their number is the ceiling of
    the span over the block size, and there is at least one when the
    block size is positive and the first centre is below the upper
    bound.  The body is one box per cell of the grid of centres, first
    coordinate by first coordinate, then the body "base_plane".  Each
    box sits at its cell's centre; on the cells whose two indices differ
    in parity the block height is 0.1, whatever the generator returns. *)
Theorem X18_blocks_grid (x_range y_range : Vec2) (block_size : R)
    (height_range : Vec2) (rand_seed : Z) (ground_alpha : R)
    (friction : Vec3) (body : list mjcf_element) :
  add_blocks (G := G) x_range y_range block_size height_range rand_seed
    ground_alpha friction
  = Ok body ->
  block_size <> 0
  /\ exists xs ys boxes,
      arange (x_range.1 + block_size / 2) x_range.2 block_size = Ok xs
      /\ arange (y_range.1 + block_size / 2) y_range.2 block_size = Ok ys
      /\ length xs
         = Z.to_nat
             (Rceil ((x_range.2 - (x_range.1 + block_size / 2)) / block_size))
      /\ length ys
         = Z.to_nat
             (Rceil ((y_range.2 - (y_range.1 + block_size / 2)) / block_size))
      /\ (0 < block_size -> x_range.1 + block_size / 2 < x_range.2 ->
          xs <> [])
      /\ (0 < block_size -> y_range.1 + block_size / 2 < y_range.2 ->
          ys <> [])
      /\ (forall i x, xs !! i = Some x ->
          x = x_range.1 + block_size / 2 + INR i * block_size)
      /\ (forall j y, ys !! j = Some y ->
          y = y_range.1 + block_size / 2 + INR j * block_size)
      /\ body = boxes ++ [Body "base_plane"]
      /\ length boxes = (length xs * length ys)%nat
      /\ Forall2
           (fun c box =>
              exists height,
                box = block_box block_size ground_alpha friction c.1.2 c.2
                        height
                /\ (c.1.1.1 `mod` 2 <> c.1.1.2 `mod` 2 -> height = 0.1))
           (grid xs ys) boxes.
Proof.
  intros Hbody.
  destruct (arange (x_range.1 + block_size / 2) x_range.2 block_size)
    as [xs|e] eqn:Ex.
  2:{ unfold add_blocks in Hbody. rewrite Ex in Hbody. discriminate. }
  destruct (arange (y_range.1 + block_size / 2) y_range.2 block_size)
    as [ys|e] eqn:Ey.
  2:{ unfold add_blocks in Hbody. rewrite Ex, Ey in Hbody. discriminate. }
  destruct (length_arange _ _ _ _ Ex) as [Hbs Hlx].
  destruct (length_arange _ _ _ _ Ey) as [_ Hly].
  split; [exact Hbs|].
  destruct (add_block_rows block_size height_range ground_alpha friction ys
              (enumerate xs) (rs_seed rand_seed) [])
    as (g' & boxes & E & Hall).
  exists xs, ys, boxes.
  split; [reflexivity|]. split; [reflexivity|].
  split; [exact Hlx|]. split; [exact Hly|].
  split; [exact (arange_nonempty _ _ _ _ Ex)|].
  split; [exact (arange_nonempty _ _ _ _ Ey)|].
  split; [intros i x; exact (arange_lookup _ _ _ _ _ _ Ex)|].
  split; [intros j y; exact (arange_lookup _ _ _ _ _ _ Ey)|].
  split; [|split; [|exact Hall]].
  - unfold add_blocks in Hbody. rewrite Ex, Ey in Hbody. simpl in Hbody.
    rewrite E in Hbody. simpl in Hbody. injection Hbody as <-. reflexivity.
  - rewrite <- (Forall2_length _ _ _ Hall). apply length_grid.
Qed.

End ArenaBlocks.

Lemma X18_blocks_grid_witness :
  exists body boxes,
    MovingFlyArena.add_blocks (G := list R) (- 10, 25) (- 20, 20) 1.3
      (0.2, 0.2) 0%Z 1 (1, 0.005, 0.0001)
    = Ok body
    /\ body = boxes ++ [Body "base_plane"]
    /\ boxes <> [].
Proof.
  destruct (add_blocks_Ok (G := list R) (- 10, 25) (- 20, 20) 1.3
              (0.2, 0.2) 0%Z 1 (1, 0.005, 0.0001) ltac:(lra))
    as [body E].
  destruct (X18_blocks_grid (G := list R) (- 10, 25) (- 20, 20) 1.3
              (0.2, 0.2) 0%Z 1 (1, 0.005, 0.0001) body E)
    as (_ & xs & ys & boxes & _ & _ & _ & _ & Hx & Hy & _ & _ & Hb & Hlen & _).
  exists body, boxes. split; [exact E|]. split; [exact Hb|].
  intros Hnil. rewrite Hnil in Hlen. simpl in Hlen.
  assert (Hxs : xs <> []) by (apply Hx; simpl; lra).
  assert (Hys : ys <> []) by (apply Hy; simpl; lra).
  destruct xs; [contradiction|]. destruct ys; [contradiction|].
  simpl in Hlen. lia.
Defined.

Section ArenaInvariant.
Context {G : Type} `{RandomSource G}.
Context {Physics : Type}.
Context (set_qpos : Physics -> Vec3 * (R * R * R * R) -> Physics).
Import MovingFlyArena.

Lemma arena_steps_invariant (dts : list R) :
  forall (self : t) (physics : Physics),
  _prev_pos self = xy (fly_pos self) ->
  let moved := (arena_steps set_qpos self dts physics).1 in
  _prev_pos moved = xy (fly_pos moved)
  /\ MovingFlyArena.curr_time moved
     = MovingFlyArena.curr_time self + foldr Rplus 0 dts
  /\ (fly_pos moved).2 = (fly_pos self).2.
Proof.
  induction dts as [|dt dts IH]; intros self physics Hprev.
  - simpl. split; [exact Hprev|]. split; [ring|reflexivity].
  - cbn [arena_steps].
    destruct (step set_qpos self dt physics) as [self1 physics1] eqn:E.
    assert (E1 : self1 = (step set_qpos self dt physics).1)
      by (rewrite E; reflexivity).
    destruct (IH self1 physics1) as (Hp & Ht & Hz);
      [rewrite E1; reflexivity|].
    split; [exact Hp|]. split.
    + rewrite Ht, E1. simpl. ring.
    + rewrite Hz, E1. reflexivity.
Qed.

(** X19.  On an arena built by [__init__], after any steps: the
    remembered previous position is the current position in the plane
    (so the next step's quaternion is the direction of that step), the
    clock is the sum of the time steps taken, and the fly is still at the
    height [obj_radius]. *)
Theorem X19_steps_keep_track (np_random : G) (terrain : string)
    (x_range y_range : Vec2) (block_size : R) (height_range : Vec2)
    (rand_seed : Z) (ground_alpha : R) (friction : Vec3) (obj_radius : R)
    (init_fly_pos : Vec2) (move_speed : R) (move_direction : string)
    (lateral_magnitude : R) (arena : t) (dts : list R) (physics : Physics) :
  (__init__ np_random terrain x_range y_range block_size height_range
     rand_seed ground_alpha friction obj_radius init_fly_pos move_speed
     move_direction lateral_magnitude).1 = Ok arena ->
  let moved := (arena_steps set_qpos arena dts physics).1 in
  _prev_pos moved = xy (fly_pos moved)
  /\ MovingFlyArena.curr_time moved = foldr Rplus 0 dts
  /\ (fly_pos moved).2 = obj_radius.
Proof.
  intros E moved.
  destruct (init_attributes _ _ _ _ _ _ _ _ _ _ _ _ _ _ _ E)
    as (Ht & Hpos & _ & Hprev & _).
  destruct (arena_steps_invariant dts arena physics) as (Hp & Hc & Hz).
  { rewrite Hprev, Hpos. destruct init_fly_pos. reflexivity. }
  fold moved in Hp, Hc, Hz.
  split; [exact Hp|]. split; [rewrite Hc, Ht; ring|].
  rewrite Hz, Hpos. reflexivity.
Qed.

End ArenaInvariant.

Lemma X19_steps_keep_track_witness :
  exists arena,
    (default_arena "flat" "right").1 = Ok arena
    /\ MovingFlyArena.curr_time
         (arena_steps (fun (p : unit) _ => p) arena [0.01; 0.02] tt).1
       = foldr Rplus 0 [0.01; 0.02].
Proof.
  eexists. split; [reflexivity|].
  exact (proj1 (proj2
           (X19_steps_keep_track (fun (p : unit) _ => p) [0.7] "flat"
              (- 10, 25) (- 20, 20) 1.3 (0.2, 0.2) 0%Z 1 (1, 0.005, 0.0001)
              1 (5, 0) 10 "right" 2 _ [0.01; 0.02] tt eq_refl))).
Defined.
